(** * sbr.cpp: loaders of a certainty-factor rule base

    Shallow embedding of the parsing layer of [src/sbr.cpp]: the text
    normaliser ([toLower], [trim]), the antecedent parser
    ([parsearAntecedente]) and the two loaders ([cargarReglas],
    [cargarHechos]), followed by the properties of the specification
    that concern them.

    Conventions of the embedding.
    - [std::string] is a list of [ascii] bytes; [std::string::npos] is
      [None] in an [option nat] position.
    - An opened [std::ifstream] is the list of the lines that successive
      [std::getline] calls deliver; a stream that failed to open is [None].
    - A function that takes a container by reference and returns [bool]
      returns here the returned value, the container as it is left and
      the messages written to [std::cerr].
    - [double] values are modelled by the exact rational the parsed text
      denotes (rounding to binary64 is abstracted). *)

From stdpp Require Import gmap strings list.
From Stdlib Require Import ZArith QArith Qabs Ascii.

Local Open Scope Z_scope.
Local Open Scope nat_scope.

Abbreviation cadena := (list ascii).

(** A string literal of the source. *)
Definition lit (s : string) : cadena := String.list_ascii_of_string s.

(** ** The parts of the C++ library the program calls *)

Module Std.

(** Results of the numeric conversions [std::stoi] and [std::stod]. *)
Inductive conv (A : Type) : Type :=
| Valor (a : A)
| invalid_argument
| out_of_range.
Arguments Valor {A} a.
Arguments invalid_argument {A}.
Arguments out_of_range {A}.

(** [double]: a finite value is the rational it denotes. *)
Inductive double : Type :=
| Finito (q : Q)
| Infinito (negativo : bool)
| NaN.

(** [std::tolower] in the "C" locale, on an [unsigned char]. *)
Definition tolower (c : ascii) : ascii :=
  let n := N_of_ascii c in
  if ((65 <=? n) && (n <=? 90))%N then ascii_of_N (n + 32) else c.

(** [std::isspace] in the "C" locale. *)
Definition isspace (c : ascii) : bool :=
  let n := N_of_ascii c in
  ((n =? 32) || ((9 <=? n) && (n <=? 13)))%N.

(** [s.substr(pos, len)] and [s.substr(pos)]. Every call of the program
    has [pos <= s.size()] (see [find_bound], [rfind_bound] and
    [find_first_not_of_bound]), so the throwing case of [substr] does
    not arise. *)
Definition substr (s : cadena) (pos len : nat) : cadena :=
  take len (drop pos s).
Definition substr_from (s : cadena) (pos : nat) : cadena :=
  drop pos s.

(** [pat] is at the front of [s]. *)
Fixpoint empieza (pat s : cadena) : bool :=
  match pat, s with
  | [], _ => true
  | _ :: _, [] => false
  | p :: pat', c :: s' => bool_decide (p = c) && empieza pat' s'
  end.

(** First occurrence of [pat] in [s], counted from the front of [s]. *)
Fixpoint find0 (s pat : cadena) : option nat :=
  if empieza pat s then Some 0
  else match s with
       | [] => None
       | _ :: s' => S <$> find0 s' pat
       end.

(** [s.find(pat, pos)]. *)
Definition find (s pat : cadena) (pos : nat) : option nat :=
  if pos <=? length s then (λ i, pos + i) <$> find0 (drop pos s) pat
  else None.

(** Last occurrence of [pat] in [s]. *)
Fixpoint rfind0 (s pat : cadena) : option nat :=
  match s with
  | [] => if empieza pat [] then Some 0 else None
  | _ :: s' =>
      match rfind0 s' pat with
      | Some i => Some (S i)
      | None => if empieza pat s then Some 0 else None
      end
  end.

(** [s.rfind(pat)]. *)
Definition rfind (s pat : cadena) : option nat := rfind0 s pat.

(** [s.rfind(c, pos)]: the last index [<= pos] that holds [c]. *)
Definition rfind_char (s : cadena) (c : ascii) (pos : nat) : option nat :=
  rfind0 (take (S pos) s) [c].

(** [s.find_first_not_of(chars)] and [s.find_last_not_of(chars)]. *)
Fixpoint find_first_not_of (s chars : cadena) : option nat :=
  match s with
  | [] => None
  | c :: s' =>
      if bool_decide (c ∈ chars) then S <$> find_first_not_of s' chars
      else Some 0
  end.

Fixpoint find_last_not_of (s chars : cadena) : option nat :=
  match s with
  | [] => None
  | c :: s' =>
      match find_last_not_of s' chars with
      | Some i => Some (S i)
      | None => if bool_decide (c ∈ chars) then None else Some 0
      end
  end.

(** *** Numeric conversions *)

Definition digito (c : ascii) : option Z :=
  let n := Z.of_N (N_of_ascii c) in
  if ((48 <=? n) && (n <=? 57))%Z then Some (n - 48)%Z else None.

Definition digito_hex (c : ascii) : option Z :=
  let n := Z.of_N (N_of_ascii (tolower c)) in
  match digito c with
  | Some d => Some d
  | None => if ((97 <=? n) && (n <=? 102))%Z then Some (n - 87)%Z else None
  end.

(** The longest run of digits at the front of [s], read in base [base]:
    its value, its length and the text after it. *)
Fixpoint leer_digitos (dig : ascii → option Z) (base : Z) (s : cadena)
    (acc : Z) (n : nat) : Z * nat * cadena :=
  match s with
  | [] => (acc, n, [])
  | c :: s' =>
      match dig c with
      | Some d => leer_digitos dig base s' (base * acc + d)%Z (S n)
      | None => (acc, n, s)
      end
  end.

Fixpoint saltar_espacios (s : cadena) : cadena :=
  match s with
  | c :: s' => if isspace c then saltar_espacios s' else s
  | [] => []
  end.

(** An optional sign: whether it is a minus, and the text after it. *)
Definition leer_signo (s : cadena) : bool * cadena :=
  match s with
  | c :: s' =>
      if bool_decide (c = "-"%char) then (true, s')
      else if bool_decide (c = "+"%char) then (false, s')
      else (false, s)
  | [] => (false, [])
  end.

(** [std::stoi(s)]: [strtol] in base 10, then the range check of [int].
    Text after the digits is ignored. *)
Definition stoi (s : cadena) : conv Z :=
  let '(neg, s1) := leer_signo (saltar_espacios s) in
  let '(v, n, _) := leer_digitos digito 10 s1 0%Z 0 in
  if n =? 0 then invalid_argument
  else
    let v := if neg then (- v)%Z else v in
    if ((- 2 ^ 31 <=? v) && (v <? 2 ^ 31))%Z then Valor v
    else out_of_range.

(** An optional exponent part: marker [e] (or [p]), optional sign and at
    least one decimal digit; absent or malformed, it counts as 0. *)
Definition leer_exponente (marca : ascii) (s : cadena) : Z :=
  match s with
  | c :: s' =>
      if bool_decide (tolower c = marca) then
        let '(neg, s1) := leer_signo s' in
        let '(e, n, _) := leer_digitos digito 10 s1 0%Z 0 in
        if n =? 0 then 0%Z else if neg then (- e)%Z else e
      else 0%Z
  | [] => 0%Z
  end.

(** [m * base ^ e] as a reduced fraction. *)
Definition escala (m base e : Z) : Q :=
  Qred (if (0 <=? e)%Z then inject_Z (m * base ^ e)
        else Qmake m (Z.to_pos (base ^ (- e)))).

(** Mantissa [digits . digits] in base [base] followed by an exponent of
    [base_exp] introduced by [marca]; [por_digito] is the weight of one
    fractional digit in powers of [base_exp]. *)
Definition leer_mantisa (dig : ascii → option Z) (base base_exp : Z)
    (por_digito : Z) (marca : ascii) (s : cadena) : option Q :=
  let '(ent, n1, s1) := leer_digitos dig base s 0%Z 0 in
  let '(m, n2, s2) :=
    match s1 with
    | c :: s1' =>
        if bool_decide (c = "."%char) then leer_digitos dig base s1' ent 0
        else (ent, 0, s1)
    | [] => (ent, 0, [])
    end in
  if n1 + n2 =? 0 then None
  else Some (escala m base_exp
               (leer_exponente marca s2 - por_digito * Z.of_nat n2)).

(** The largest magnitude that still rounds to a finite binary64. *)
Definition limite_double : Q := inject_Z (2 ^ 1024 - 2 ^ 970).

(** Below this magnitude, [2 ^ -1022 - 2 ^ -1076], a value rounded to 53
    bits is still below the smallest normal binary64, [2 ^ -1022]. *)
Definition limite_subnormal : Q := Qmake (2 ^ 54 - 1) (2 ^ 1076).

(** [q] is a multiple of [2 ^ -1074], the spacing of the subnormal
    binary64: it is represented without rounding. *)
Definition exacto_subnormal (q : Q) : bool :=
  ((Qnum q * 2 ^ 1074) mod Z.pos (Qden q) =? 0)%Z.

(** The result underflows: it is below the normal range and is not
    represented without rounding. Zero does not underflow. *)
Definition subdesborda (q : Q) : bool :=
  negb (Qle_bool limite_subnormal (Qabs q)) && negb (exacto_subnormal q).

(** [std::stod(s)]: [strtod], then [out_of_range] when [strtod] reports
    [ERANGE], on overflow and on underflow. Accepted are decimal and
    hexadecimal floating literals, [inf], [infinity] and [nan]; text
    after the number is ignored. The value returned is the number
    written, before its rounding to binary64. *)
Definition stod (s : cadena) : conv double :=
  let '(neg, s1) := leer_signo (saltar_espacios s) in
  let bajo := tolower <$> s1 in
  if empieza (lit "inf") bajo then Valor (Infinito neg)
  else if empieza (lit "nan") bajo then Valor NaN
  else
    let leido :=
      match (if empieza (lit "0x") bajo
             then leer_mantisa digito_hex 16 2 4 "p"%char (drop 2 s1)
             else None) with
      | Some q => Some q
      | None => leer_mantisa digito 10 10 1 "e"%char s1
      end in
    match leido with
    | None => invalid_argument
    | Some q =>
        if Qle_bool limite_double (Qabs q) then out_of_range
        else if subdesborda q then out_of_range
        else Valor (Finito (if neg then Qred (- q) else q))
    end.

(** [std::getline(archivo, linea)] on the lines still to be read. *)
Definition getline (archivo : list cadena) : option (cadena * list cadena) :=
  match archivo with
  | [] => None
  | linea :: resto => Some (linea, resto)
  end.

End Std.
Export Std.

(** ** Data structures (sbr.cpp, lines 10-49) *)

Record Hecho : Type := {
  nombre : cadena;
  factorCerteza : double
}.

Module OperadorLogico.
Inductive t : Type := NINGUNO | Y | O.
End OperadorLogico.

Record Antecedente : Type := {
  condiciones : list Hecho;
  operador : OperadorLogico.t
}.

Record Regla : Type := {
  id : cadena;
  antecedente : Antecedente;
  consecuente : Hecho;
  factorCertezaRegla : double
}.

Record BaseConocimiento : Type := {
  reglas : list Regla
}.

Record BaseHechos : Type := {
  hechos_iniciales : list Hecho;
  objetivo : Hecho;
  fc_memoria : gmap cadena double
}.

(** The values the default member initialisers and default constructors
    give: [factorCerteza = 0.0], [operador = NINGUNO], empty containers. *)
Definition Hecho_defecto : Hecho :=
  {| nombre := []; factorCerteza := Finito 0 |}.
Definition Antecedente_defecto : Antecedente :=
  {| condiciones := []; operador := OperadorLogico.NINGUNO |}.
Definition Hecho_con_nombre (n : cadena) : Hecho :=
  {| nombre := n; factorCerteza := factorCerteza Hecho_defecto |}.
Definition BaseConocimiento_defecto : BaseConocimiento :=
  {| reglas := [] |}.
Definition BaseHechos_defecto : BaseHechos :=
  {| hechos_iniciales := []; objetivo := Hecho_defecto; fc_memoria := ∅ |}.

(** ** What the loaders write to [std::cerr]

    One constructor per kind of message, named after the error taxonomy of
    the specification; the source lines that print each are listed. *)
Inductive Diagnostico : Type :=
| OpenError        (* 123, 245: the file cannot be opened *)
| EmptyFile        (* 139, 261: there is no first line *)
| InvalidCount     (* 135, 257: the count line is not a number *)
| UnexpectedEOF    (* 145, 267: the lines run out; 339: no keyword line *)
| MissingDelimiter (* 160: no colon; 179, 283: no comma *)
| MissingFCMarker  (* 172: no "fc=" in a rule *)
| MissingKeyword   (* 200: "Si"; 206: "Entonces"; 293: "FC="; 324: "Objetivo" *)
| EmptyClause      (* 214, 218: empty antecedent or consequent; 331, 343: goal *)
| EmptyLiteral     (* 110: an empty literal in an antecedent *)
| InvalidNumber    (* 187, 301: the certainty factor is not a number *)
| AntecedentError  (* 224: the antecedent parser failed *)
| CountMismatch.   (* 235, 310: the warning on the number of entries *)

(** How a call ends: it returns a [bool], or an exception that no handler
    of the program catches ([std::out_of_range] of [stoi] and [stod])
    leaves it. *)
Inductive Retorno : Type :=
| Devuelve (b : bool)
| Lanza_out_of_range.

(** A step of a loader: it goes on with a value, or the loader is left. *)
Inductive Paso (A : Type) : Type :=
| Sigue (a : A)
| Sale (r : Retorno) (cerr : list Diagnostico).
Arguments Sigue {A} a.
Arguments Sale {A} r cerr.

(** ** Text normaliser (lines 53-68) *)

Definition toLower (s : cadena) : cadena := tolower <$> s.

Definition whitespace : cadena :=
  [" "; "009"; "010"; "013"; "012"; "011"]%char.

(** [find_last_not_of] finds a character whenever [find_first_not_of] did
    ([find_last_not_of_is_Some]), so its [None] branch is not taken. *)
Definition trim (str : cadena) : cadena :=
  match find_first_not_of str whitespace with
  | None => []
  | Some start =>
      match find_last_not_of str whitespace with
      | Some end_ => substr str start (end_ - start + 1)
      | None => []
      end
  end.

(** [s.empty()], of a string or of a vector. *)
Definition vacia {A : Type} (s : list A) : bool :=
  match s with [] => true | _ => false end.

(** Tests on a position: [pos != npos], and [<] on [size_t], where [npos]
    is the largest value. *)
Definition hallado (pos : option nat) : bool :=
  match pos with Some _ => true | None => false end.
Definition pos_lt (a b : option nat) : bool :=
  match a, b with
  | Some x, Some y => x <? y
  | Some _, None => true
  | None, _ => false
  end.

(** ** Antecedent parser (lines 71-115) *)

Definition opY : cadena := lit " y ".
Definition opO : cadena := lit " o ".

(** The [while] loops of lines 83-88 and 92-97: [pos] is the delimiter
    found last and [start] the end of the one before it. Each turn moves
    [start] forward by at least the delimiter, so the length of the text
    bounds the number of turns; the bound is the first argument. The
    bound that [literales] gives is never used up ([separar_Partes]), and
    no larger one changes the result ([separar_fuel]). *)
Fixpoint separar (turnos : nat) (alfaStr alfaLower op : cadena)
    (start : nat) (pos : option nat) (literalesStr : list cadena)
    : list cadena :=
  match pos with
  | None => literalesStr ++ [trim (substr_from alfaStr start)]
  | Some p =>
      match turnos with
      | 0 => literalesStr
      | S turnos' =>
          separar turnos' alfaStr alfaLower op
            (p + length op) (find alfaLower op (p + length op))
            (literalesStr ++ [trim (substr alfaStr start (p - start))])
      end
  end.

(** Lines 72-101: the operator and the literals of an antecedent text. *)
Definition literales (alfaStr : cadena) : OperadorLogico.t * list cadena :=
  let alfaLower := toLower alfaStr in
  let posY := find alfaLower opY 0 in
  let posO := find alfaLower opO 0 in
  let turnos := S (length alfaStr) in
  if hallado posY && (negb (hallado posO) || pos_lt posY posO) then
    (OperadorLogico.Y, separar turnos alfaStr alfaLower opY 0 posY [])
  else if hallado posO then
    (OperadorLogico.O, separar turnos alfaStr alfaLower opO 0 posO [])
  else
    (OperadorLogico.NINGUNO, [trim alfaStr]).

(** Lines 103-113: the loop over the literals. The [bool] tells whether the
    loop ran to its end; an empty literal leaves the function with the
    conditions pushed so far. *)
Fixpoint agregar (literalesStr : list cadena) (condiciones : list Hecho)
    : bool * list Hecho * list Diagnostico :=
  match literalesStr with
  | [] => (true, condiciones, [])
  | litStr :: resto =>
      if negb (vacia litStr)
      then agregar resto (condiciones ++ [Hecho_con_nombre litStr])
      else (false, condiciones, [EmptyLiteral])
  end.

Definition parsearAntecedente (alfaStr : cadena) (antecedente : Antecedente)
    : bool * Antecedente * list Diagnostico :=
  let '(op, literalesStr) := literales alfaStr in
  let '(completo, conds, cerr) := agregar literalesStr (condiciones antecedente) in
  let antecedente' := {| condiciones := conds; operador := op |} in
  if completo then (negb (vacia conds), antecedente', cerr)
  else (false, antecedente', cerr).

(** ** Rule loader (lines 120-240) *)

Definition fcMarkerLower : cadena := lit "fc=".
Definition siMarker : cadena := lit "si ".
Definition entoncesMarker : cadena := lit " entonces ".

(** Lines 193-231: the clause [Si ... Entonces ...] of a rule whose
    identifier and certainty factor are read. *)
Definition regla_de_clausula (r_id : cadena) (fc : double)
    (reglaSiEntonces : cadena) : Paso Regla :=
  let reglaSiEntoncesLower := toLower reglaSiEntonces in
  match find reglaSiEntoncesLower siMarker 0 with
  | Some 0 =>
      let posSi := 0 in
      match find reglaSiEntoncesLower entoncesMarker
              (posSi + length siMarker) with
      | None => Sale (Devuelve false) [MissingKeyword]
      | Some posEntonces =>
          let alfaStr :=
            trim (substr reglaSiEntonces (posSi + length siMarker)
                    (posEntonces - (posSi + length siMarker))) in
          let betaStr :=
            trim (substr_from reglaSiEntonces
                    (posEntonces + length entoncesMarker)) in
          if vacia alfaStr then Sale (Devuelve false) [EmptyClause]
          else if vacia betaStr then Sale (Devuelve false) [EmptyClause]
          else
            let '(ok, ant, cerr) :=
              parsearAntecedente alfaStr Antecedente_defecto in
            if ok then
              Sigue {| id := r_id;
                       antecedente := ant;
                       consecuente := Hecho_con_nombre (trim betaStr);
                       factorCertezaRegla := fc |}
            else Sale (Devuelve false) (cerr ++ [AntecedentError])
      end
  | _ => Sale (Devuelve false) [MissingKeyword]
  end.

(** Lines 183-231: the rest of the loop body once the marker [fc=] and the
    comma before it are located. *)
Definition regla_desde_marcador (r_id defReglaCompleta : cadena)
    (posFc posComaAntesFc : nat) : Paso Regla :=
  let fcValorStr :=
    trim (substr_from defReglaCompleta (posFc + length fcMarkerLower)) in
  match stod fcValorStr with
  | invalid_argument => Sale (Devuelve false) [InvalidNumber]
  | out_of_range => Sale Lanza_out_of_range []
  | Valor fc =>
      regla_de_clausula r_id fc
        (trim (substr defReglaCompleta 0 posComaAntesFc))
  end.

(** Lines 155-231: the loop body on a trimmed, non-empty line. *)
Definition regla_de_linea (linea : cadena) : Paso Regla :=
  match find linea [":"%char] 0 with
  | None => Sale (Devuelve false) [MissingDelimiter]
  | Some posColon =>
      let r_id := trim (substr linea 0 posColon) in
      let defReglaCompleta := trim (substr_from linea (posColon + 1)) in
      let defReglaLower := toLower defReglaCompleta in
      match rfind defReglaLower fcMarkerLower with
      | None => Sale (Devuelve false) [MissingFCMarker]
      | Some posFc =>
          match rfind_char defReglaCompleta ","%char posFc with
          | None => Sale (Devuelve false) [MissingDelimiter]
          | Some posComaAntesFc =>
              regla_desde_marcador r_id defReglaCompleta posFc posComaAntesFc
          end
      end
  end.

(** The [for] loop of lines 143-233. [pendientes] is
    [numReglasEsperadas - i]; a blank line leaves it as it is. The loop
    ends with the lines not yet read, or the function is left. *)
Fixpoint bucle_reglas (pendientes : nat) (archivo : list cadena)
    (bc : BaseConocimiento) : Paso (list cadena) * BaseConocimiento :=
  match pendientes with
  | 0 => (Sigue archivo, bc)
  | S pendientes' =>
      match archivo with
      | [] => (Sale (Devuelve false) [UnexpectedEOF], bc)
      | linea :: archivo' =>
          let linea := trim linea in
          if vacia linea then bucle_reglas pendientes archivo' bc
          else
            match regla_de_linea linea with
            | Sale r cerr => (Sale r cerr, bc)
            | Sigue r =>
                bucle_reglas pendientes' archivo'
                  {| reglas := reglas bc ++ [r] |}
            end
      end
  end.

(** [bc.reglas.size() != numReglasEsperadas]: the [int] is converted to
    the 64-bit [size_t] of the left operand. *)
Definition size_distinto (size : nat) (esperados : Z) : bool :=
  negb (Z.of_nat size =? esperados mod 2 ^ 64)%Z.

Definition cargarReglas (archivo : option (list cadena))
    (bc : BaseConocimiento)
    : Retorno * BaseConocimiento * list Diagnostico :=
  match archivo with
  | None => (Devuelve false, bc, [OpenError])
  | Some archivo =>
      match getline archivo with
      | None => (Devuelve false, bc, [EmptyFile])
      | Some (linea, archivo) =>
          match stoi (trim linea) with
          | invalid_argument => (Devuelve false, bc, [InvalidCount])
          | out_of_range => (Lanza_out_of_range, bc, [])
          | Valor numReglasEsperadas =>
              match bucle_reglas (Z.to_nat numReglasEsperadas) archivo bc with
              | (Sale r cerr, bc) => (r, bc, cerr)
              | (Sigue _, bc) =>
                  (Devuelve true, bc,
                   if size_distinto (length (reglas bc)) numReglasEsperadas
                   then [CountMismatch] else [])
              end
          end
      end
  end.

(** ** Fact loader (lines 242-348) *)

(** Lines 276-303: the loop body on a trimmed, non-empty line. *)
Definition hecho_de_linea (linea : cadena) : Paso Hecho :=
  match rfind linea [","%char] with
  | None => Sale (Devuelve false) [MissingDelimiter]
  | Some posComa =>
      let h_nombre := trim (substr linea 0 posComa) in
      let fcParte := trim (substr_from linea (posComa + 1)) in
      let fcParteLower := toLower fcParte in
      match find fcParteLower fcMarkerLower 0 with
      | Some 0 =>
          let posFc := 0 in
          let fcValorStr :=
            trim (substr_from fcParte (posFc + length fcMarkerLower)) in
          match stod fcValorStr with
          | invalid_argument => Sale (Devuelve false) [InvalidNumber]
          | out_of_range => Sale Lanza_out_of_range []
          | Valor fc => Sigue {| nombre := h_nombre; factorCerteza := fc |}
          end
      | _ => Sale (Devuelve false) [MissingKeyword]
      end
  end.

(** Lines 305-306. *)
Definition agregar_hecho (h : Hecho) (bh : BaseHechos) : BaseHechos :=
  {| hechos_iniciales := hechos_iniciales bh ++ [h];
     objetivo := objetivo bh;
     fc_memoria := <[nombre h := factorCerteza h]> (fc_memoria bh) |}.

(** The [for] loop of lines 265-307. *)
Fixpoint bucle_hechos (pendientes : nat) (archivo : list cadena)
    (bh : BaseHechos) : Paso (list cadena) * BaseHechos :=
  match pendientes with
  | 0 => (Sigue archivo, bh)
  | S pendientes' =>
      match archivo with
      | [] => (Sale (Devuelve false) [UnexpectedEOF], bh)
      | linea :: archivo' =>
          let linea := trim linea in
          if vacia linea then bucle_hechos pendientes archivo' bh
          else
            match hecho_de_linea linea with
            | Sale r cerr => (Sale r cerr, bh)
            | Sigue h => bucle_hechos pendientes' archivo' (agregar_hecho h bh)
            end
      end
  end.

Definition con_objetivo (n : cadena) (bh : BaseHechos) : BaseHechos :=
  {| hechos_iniciales := hechos_iniciales bh;
     objetivo := {| nombre := n; factorCerteza := factorCerteza (objetivo bh) |};
     fc_memoria := fc_memoria bh |}.

(** Lines 315-347: the [while] loop that reads the keyword and the goal,
    and the checks after it. *)
Fixpoint leer_objetivo (archivo : list cadena) (leidoKeywordObjetivo : bool)
    (bh : BaseHechos) : Retorno * BaseHechos * list Diagnostico :=
  match archivo with
  | [] =>
      if negb leidoKeywordObjetivo then (Devuelve false, bh, [UnexpectedEOF])
      else if vacia (nombre (objetivo bh)) then (Devuelve false, bh, [EmptyClause])
      else (Devuelve true, bh, [])
  | linea :: archivo' =>
      let linea := trim linea in
      if vacia linea then leer_objetivo archivo' leidoKeywordObjetivo bh
      else if negb leidoKeywordObjetivo then
        if bool_decide (toLower linea = lit "objetivo")
        then leer_objetivo archivo' true bh
        else (Devuelve false, bh, [MissingKeyword])
      else
        let bh := con_objetivo (trim linea) bh in
        if vacia (nombre (objetivo bh)) then (Devuelve false, bh, [EmptyClause])
        else (Devuelve true, bh, [])
  end.

Definition cargarHechos (archivo : option (list cadena)) (bh : BaseHechos)
    : Retorno * BaseHechos * list Diagnostico :=
  match archivo with
  | None => (Devuelve false, bh, [OpenError])
  | Some archivo =>
      match getline archivo with
      | None => (Devuelve false, bh, [EmptyFile])
      | Some (linea, archivo) =>
          match stoi (trim linea) with
          | invalid_argument => (Devuelve false, bh, [InvalidCount])
          | out_of_range => (Lanza_out_of_range, bh, [])
          | Valor numHechosEsperados =>
              match bucle_hechos (Z.to_nat numHechosEsperados) archivo bh with
              | (Sale r cerr, bh) => (r, bh, cerr)
              | (Sigue archivo, bh) =>
                  let aviso :=
                    if size_distinto (length (hechos_iniciales bh))
                         numHechosEsperados
                    then [CountMismatch] else [] in
                  let '(r, bh, cerr) := leer_objetivo archivo false bh in
                  (r, bh, aviso ++ cerr)
              end
          end
      end
  end.

(** ** The files that [main] writes (lines 392-415) *)

Definition Prueba_1_reglas : list cadena :=
  [ lit "4";
    lit "R1: Si h2 o h3 Entonces h1, FC = 0.5";
    lit "R2: Si h4 Entonces h1, FC = 1";
    lit "R3: Si h5 y h6 Entonces h3, FC = 0.7";
    lit "R4: Si h7 Entonces h3, FC = -0.5" ].

Definition Prueba_1_hechos : list cadena :=
  [ lit "5";
    lit "h2, FC = 0.3";
    lit "h4, FC = 0.6";
    lit "h5, FC = 0.6";
    lit "h6, FC = 0.9";
    lit "h7, FC = 0.5";
    lit "Objetivo";
    lit "h1" ].

(** ** Printing (lines 352-382)

    What [imprimirBaseConocimiento] and [imprimirBaseHechos] write to
    [std::cout] for one rule and for one fact, before [std::endl]. The
    text that [operator<<] gives for a [double] is a parameter. *)

(** Lines 360-361: what is written between two conditions. *)
Definition separador (op : OperadorLogico.t) : cadena :=
  match op with
  | OperadorLogico.Y => lit " y "
  | OperadorLogico.O => lit " o "
  | OperadorLogico.NINGUNO => []
  end.

(** Lines 357-363: the conditions, with the operator after each one but
    the last. *)
Fixpoint texto_condiciones (op : OperadorLogico.t) (conds : list Hecho)
    : cadena :=
  match conds with
  | [] => []
  | h :: resto =>
      nombre h
      ++ (if vacia resto then []
          else separador op ++ texto_condiciones op resto)
  end.

(** Lines 356-365. *)
Definition linea_regla (mostrar_double : double → cadena) (regla : Regla)
    : cadena :=
  id regla ++ lit ": Si "
  ++ texto_condiciones (operador (antecedente regla))
       (condiciones (antecedente regla))
  ++ lit " Entonces " ++ nombre (consecuente regla)
  ++ lit ", FC = " ++ mostrar_double (factorCertezaRegla regla).

(** Line 374. *)
Definition linea_hecho (mostrar_double : double → cadena) (hecho : Hecho)
    : cadena :=
  nombre hecho ++ lit ", FC = " ++ mostrar_double (factorCerteza hecho).

(** * Vocabulary of the properties *)

(** ** Occurrences of a pattern *)

(** [pat] occurs in [t] at index [i]. *)
Definition ocurre (pat t : cadena) (i : nat) : Prop :=
  i ≤ length t ∧ pat `prefix_of` drop i t.

(** [i] is the first index at or after [desde] where [pat] occurs. *)
Definition primera_desde (pat t : cadena) (desde i : nat) : Prop :=
  desde ≤ i ∧ ocurre pat t i ∧ ∀ j, desde ≤ j → j < i → ¬ ocurre pat t j.

Definition primera (pat t : cadena) (i : nat) : Prop :=
  primera_desde pat t 0 i.

(** [i] is the last index where [pat] occurs. *)
Definition ultima (pat t : cadena) (i : nat) : Prop :=
  ocurre pat t i ∧ ∀ j, i < j → ¬ ocurre pat t j.

Definition ausente (pat t : cadena) : Prop :=
  ∀ i, ¬ ocurre pat t i.

(** [i] is the last index at or before [pos] where [s] holds [c]. *)
Definition ultimo_char_hasta (c : ascii) (s : cadena) (pos i : nat) : Prop :=
  i ≤ pos ∧ s !! i = Some c ∧ ∀ j, i < j → j ≤ pos → s !! j ≠ Some c.

(** ** White space *)

Definition blanco (c : ascii) : Prop := c ∈ whitespace.

(** A text with no white space at either end. *)
Definition recortada (t : cadena) : Prop :=
  (∀ c, head t = Some c → ¬ blanco c) ∧ (∀ c, last t = Some c → ¬ blanco c).


(** ** The operator and the literals of an antecedent *)

(** [ps] are the pieces of [s] cut at every occurrence of [pat] in the
    case-folded text, taken left to right: the first occurrence ends the
    first piece, and the search goes on in what follows the delimiter. *)
Inductive Partes (pat : cadena) : cadena → list cadena → Prop :=
| Partes_fin s :
    ausente pat (toLower s) → Partes pat s [s]
| Partes_corte s i ps :
    primera pat (toLower s) i →
    Partes pat (drop (i + length pat) s) ps →
    Partes pat s (take i s :: ps).

(** The operator and the literals the specification gives for an
    antecedent text. *)
Inductive Seleccion (alfaStr : cadena)
    : OperadorLogico.t * list cadena → Prop :=
| Seleccion_Y i ps :
    primera opY (toLower alfaStr) i →
    ausente opO (toLower alfaStr)
      ∨ (∃ j, primera opO (toLower alfaStr) j ∧ i < j) →
    Partes opY alfaStr ps →
    Seleccion alfaStr (OperadorLogico.Y, trim <$> ps)
| Seleccion_O j ps :
    primera opO (toLower alfaStr) j →
    ausente opY (toLower alfaStr)
      ∨ (∃ i, primera opY (toLower alfaStr) i ∧ j ≤ i) →
    Partes opO alfaStr ps →
    Seleccion alfaStr (OperadorLogico.O, trim <$> ps)
| Seleccion_NINGUNO :
    ausente opY (toLower alfaStr) →
    ausente opO (toLower alfaStr) →
    Seleccion alfaStr (OperadorLogico.NINGUNO, [trim alfaStr]).

(** ** The count line *)

(** The text does not begin with a number: after leading white space and
    an optional sign there is no decimal digit. *)
Definition sin_numero (s : cadena) : Prop :=
  match (leer_signo (saltar_espacios s)).2 with
  | [] => True
  | c :: _ => digito c = None
  end.

(** The whole text is an integer literal: an optional sign and then
    decimal digits only, at least one. *)
Definition es_entero (s : cadena) : bool :=
  match (leer_signo s).2 with
  | [] => false
  | c :: s' => forallb (λ x, bool_decide (is_Some (digito x))) (c :: s')
  end.

(** ** Runs of lines *)

(** The rules that a run of lines yields when each line is blank or a
    well-formed rule; [None] when some line is neither. *)
Fixpoint reglas_previas (lineas : list cadena) : option (list Regla) :=
  match lineas with
  | [] => Some []
  | l :: ls =>
      if vacia (trim l) then reglas_previas ls
      else match regla_de_linea (trim l) with
           | Sigue r => (r ::.) <$> reglas_previas ls
           | Sale _ _ => None
           end
  end.

Fixpoint hechos_previos (lineas : list cadena) : option (list Hecho) :=
  match lineas with
  | [] => Some []
  | l :: ls =>
      if vacia (trim l) then hechos_previos ls
      else match hecho_de_linea (trim l) with
           | Sigue h => (h ::.) <$> hechos_previos ls
           | Sale _ _ => None
           end
  end.

(** A rule line in which the colon, the marker, the comma and the number
    are in place and whose case-folded clause has no [" entonces "]. *)
Definition sin_entonces (linea : cadena) : Prop :=
  ∃ posColon posFc posComa fc,
    find linea [":"%char] 0 = Some posColon
    ∧ let def := trim (substr_from linea (posColon + 1)) in
      rfind (toLower def) fcMarkerLower = Some posFc
      ∧ rfind_char def ","%char posFc = Some posComa
      ∧ stod (trim (substr_from def (posFc + length fcMarkerLower))) = Valor fc
      ∧ ausente entoncesMarker (toLower (trim (substr def 0 posComa))).

(** ** The working memory *)

(** The certainty of the last fact named [n] in [hs]. *)
Definition ultimo_fc (n : cadena) (hs : list Hecho) : option double :=
  factorCerteza <$> last (filter (λ h, nombre h = n) hs).

(** The working memory holds, for each name, the certainty of the last
    initial fact of that name, and nothing else. *)
Definition memoria_sembrada (bh : BaseHechos) : Prop :=
  ∀ n, fc_memoria bh !! n = ultimo_fc n (hechos_iniciales bh).

(** ** Sample lines and files *)

(** Well-formed rule lines, with the marker written [FC=], and the rules
    they denote. *)
Definition linea_R1 : cadena := lit "R1: Si h2 o h3 Entonces h1, FC=0.5".
Definition linea_R2 : cadena := lit "R2: Si h4 Entonces h1, FC=1".
Definition linea_R3 : cadena := lit "R3: Si h5 y h6 Entonces h3, FC=0.7".
Definition linea_R4 : cadena := lit "R4: Si h7 Entonces h3, FC=-0.5".

Definition regla_de (r_id : string) (op : OperadorLogico.t)
    (conds : list string) (cons : string) (fc : Q) : Regla :=
  {| id := lit r_id;
     antecedente := {| condiciones := (Hecho_con_nombre ∘ lit) <$> conds;
                       operador := op |};
     consecuente := Hecho_con_nombre (lit cons);
     factorCertezaRegla := Finito fc |}.

Definition regla_R1 : Regla :=
  regla_de "R1" OperadorLogico.O ["h2"; "h3"]%string "h1" (1 # 2).
Definition regla_R2 : Regla :=
  regla_de "R2" OperadorLogico.NINGUNO ["h4"]%string "h1" 1.
Definition regla_R3 : Regla :=
  regla_de "R3" OperadorLogico.Y ["h5"; "h6"]%string "h3" (7 # 10).
Definition regla_R4 : Regla :=
  regla_de "R4" OperadorLogico.NINGUNO ["h7"]%string "h3" (-1 # 2).

(** A facts file in which the name [h4] comes twice. *)
Definition hechos_repetido : list cadena :=
  [ lit "3";
    lit "h2, FC=0.3";
    lit "h4, FC=0.6";
    lit "h4, FC=0.5";
    lit "Objetivo";
    lit "h1" ].


(** A rule line without [Entonces] and a fact line without a comma. *)
Definition linea_sin_entonces : cadena := lit "R3: Si h5 y h6 h3, FC=0.7".
Definition linea_sin_coma : cadena := lit "h5 FC=0.6".

(** A rule whose consequent holds [fc=] and two commas, and a fact whose
    name holds a comma. *)
Definition linea_dos_marcadores : cadena :=
  lit "R7: Si a Entonces fc=b, c, FC=0.5".
Definition linea_dos_comas : cadena := lit "h2, x, FC=0.3".

(** ** Well-formed texts and rules *)

(** A word: a text that is not empty and holds no white space. *)
Definition palabra (w : cadena) : Prop :=
  w ≠ [] ∧ Forall (λ c, ¬ blanco c) w.

(** The operator fits the number of conditions: NINGUNO with one, Y or O
    with two or more. *)
Definition operador_acorde (op : OperadorLogico.t) (n : nat) : Prop :=
  match op with
  | OperadorLogico.NINGUNO => n = 1
  | _ => 2 ≤ n
  end.

(** A fact as the parsers build it: its name is not empty and is trimmed,
    and its certainty is the one of a fact just constructed. *)
Definition hecho_nombrado (h : Hecho) : Prop :=
  nombre h ≠ [] ∧ trim (nombre h) = nombre h
  ∧ factorCerteza h = factorCerteza Hecho_defecto.

Definition regla_bien_formada (r : Regla) : Prop :=
  trim (id r) = id r
  ∧ hecho_nombrado (consecuente r)
  ∧ Forall hecho_nombrado (condiciones (antecedente r))
  ∧ operador_acorde (operador (antecedente r))
      (length (condiciones (antecedente r))).

(** The lines that are not blank, trimmed. *)
Definition limpiar (lineas : list cadena) : list cadena :=
  trim <$> filter (λ l, trim l ≠ []) lineas.

(** A fact as [parsearAntecedente] can read it back: its name is a word
    and its certainty is the one of a fact just constructed. *)
Definition hecho_palabra (h : Hecho) : Prop :=
  palabra (nombre h) ∧ factorCerteza h = factorCerteza Hecho_defecto.

(** A condition that a rule line can carry: a fact that can be read back
    and whose name is not the keyword of the consequent. *)
Definition condicion_legible (h : Hecho) : Prop :=
  hecho_palabra h ∧ toLower (nombre h) ≠ lit "entonces".

(** Every sign [=] of the text comes right after a space. *)
Definition igual_tras_espacio (s : cadena) : Prop :=
  ∀ i, s !! S i = Some "="%char → s !! i = Some " "%char.

(** What a call wrote agrees with how it ended: after [true] nothing but
    the warning on the count, after [false] an error last, and nothing
    when an exception leaves the call. *)
Definition informe_coherente (r : Retorno) (cerr : list Diagnostico) : Prop :=
  match r with
  | Devuelve true => cerr = [] ∨ cerr = [CountMismatch]
  | Devuelve false => ∃ e, last cerr = Some e ∧ e ≠ CountMismatch
  | Lanza_out_of_range => cerr = []
  end.

(** * Properties *)

(** ** Occurrences of a pattern, and what the searches return *)

Lemma empieza_prefix pat s : empieza pat s = true ↔ pat `prefix_of` s.
Proof.
  revert s. induction pat as [|p pat IH]; intros [|c s]; simpl.
  - split; [intros _; apply prefix_nil | done].
  - split; [intros _; apply prefix_nil | done].
  - split; [done | intros H; by apply prefix_nil_not in H].
  - rewrite andb_true_iff, bool_decide_eq_true, IH. split.
    + intros [-> H]. by apply prefix_cons.
    + intros H. split; [by eapply prefix_cons_inv_1 | by eapply prefix_cons_inv_2].
Qed.

Lemma empieza_false pat s : empieza pat s = false ↔ ¬ pat `prefix_of` s.
Proof. rewrite <- empieza_prefix. by destruct (empieza pat s). Qed.

Lemma ocurre_0 pat s : ocurre pat s 0 ↔ pat `prefix_of` s.
Proof. unfold ocurre. simpl. rewrite drop_0. split; [tauto | intros; split; [lia | done]]. Qed.

Lemma ocurre_S pat c s i : ocurre pat (c :: s) (S i) ↔ ocurre pat s i.
Proof. unfold ocurre. simpl. split; intros [? ?]; split; (lia || done). Qed.

Lemma ocurre_nil pat i : ocurre pat [] i → i = 0.
Proof. intros [H _]. simpl in H. lia. Qed.

Lemma ocurre_drop pat t pos k :
  pos ≤ length t → ocurre pat (drop pos t) k ↔ ocurre pat t (pos + k).
Proof.
  intros Hpos. unfold ocurre. rewrite length_drop, drop_drop.
  split; intros [? ?]; split; (lia || done).
Qed.

Lemma ocurre_bound pat t i : ocurre pat t i → i + length pat ≤ length t.
Proof.
  intros [Hi Hp]. apply prefix_length in Hp. rewrite length_drop in Hp. lia.
Qed.

Lemma find0_Some s pat i :
  find0 s pat = Some i ↔ ocurre pat s i ∧ ∀ j, j < i → ¬ ocurre pat s j.
Proof.
  revert i. induction s as [|c s IH]; intros i; simpl.
  - destruct (empieza pat []) eqn:E.
    + apply empieza_prefix in E. split.
      * intros [= <-]. split; [by apply ocurre_0 | intros; lia].
      * intros [H _]. apply ocurre_nil in H. by subst.
    + apply empieza_false in E. split; [done |].
      intros [H _]. pose proof (ocurre_nil _ _ H). subst.
      by apply ocurre_0 in H.
  - destruct (empieza pat (c :: s)) eqn:E.
    + apply empieza_prefix in E. split.
      * intros [= <-]. split; [by apply ocurre_0 | intros; lia].
      * intros [_ H]. destruct i as [|i]; [done |].
        exfalso. apply (H 0); [lia | by apply ocurre_0].
    + apply empieza_false in E. destruct i as [|i].
      * split.
        -- destruct (find0 s pat); done.
        -- intros [H _]. by apply ocurre_0 in H.
      * destruct (find0 s pat) as [k|]; simpl.
        -- split.
           ++ intros [= <-]. destruct (proj1 (IH k) eq_refl) as [F1 F2]. split.
              ** by apply ocurre_S.
              ** intros [|j] Hj; [by rewrite ocurre_0 |].
                 rewrite ocurre_S. apply F2. lia.
           ++ intros [H1 H2]. f_equal. symmetry.
              assert (Some k = Some i) as [= ->]; [| done].
              apply IH. split.
              ** by apply ocurre_S in H1.
              ** intros j Hj Hoc. apply (H2 (S j)); [lia | by apply ocurre_S].
        -- split; [done |]. intros [H1 H2]. exfalso.
           assert (None = Some i) as F'; [| congruence].
           apply IH. split.
           ++ by apply ocurre_S in H1.
           ++ intros j Hj Hoc. apply (H2 (S j)); [lia | by apply ocurre_S].
Qed.

Lemma find0_None s pat : find0 s pat = None ↔ ausente pat s.
Proof.
  unfold ausente. induction s as [|c s IH]; simpl.
  - destruct (empieza pat []) eqn:E.
    + apply empieza_prefix in E. split; [done |].
      intros H. exfalso. apply (H 0). by apply ocurre_0.
    + apply empieza_false in E. split; [| done].
      intros _ i H. pose proof (ocurre_nil _ _ H). subst. by apply ocurre_0 in H.
  - destruct (empieza pat (c :: s)) eqn:E.
    + apply empieza_prefix in E. split; [done |].
      intros H. exfalso. apply (H 0). by apply ocurre_0.
    + apply empieza_false in E. destruct (find0 s pat) as [k|] eqn:F; simpl.
      * split; [done |]. intros H. exfalso.
        apply find0_Some in F as [F _]. apply (H (S k)). by apply ocurre_S.
      * split; [| done]. intros _ [|i]; [by rewrite ocurre_0 |].
        rewrite ocurre_S. by apply (proj1 IH).
Qed.

(** [s.find(pat, pos)] is the first occurrence at or after [pos]. *)
Lemma find_Some t pat pos i :
  find t pat pos = Some i ↔ primera_desde pat t pos i.
Proof.
  unfold find, primera_desde. destruct (Nat.leb_spec pos (length t)) as [Hle|Hgt].
  - destruct (find0 (drop pos t) pat) as [k|] eqn:F; simpl.
    + apply find0_Some in F as [F1 F2]. split.
      * intros [= <-]. split; [lia |]. split; [by apply ocurre_drop |].
        intros j Hj1 Hj2 Hoc. apply (F2 (j - pos)); [lia |].
        apply ocurre_drop; [done |]. by replace (pos + (j - pos)) with j by lia.
      * intros (H1 & H2 & H3). f_equal.
        destruct (Nat.lt_trichotomy (pos + k) i) as [Hlt|[Heq|Hgt]]; [| done |].
        -- exfalso. apply (H3 (pos + k)); [lia | done |]. by apply ocurre_drop.
        -- exfalso. apply (F2 (i - pos)); [lia |].
           apply ocurre_drop; [done |]. by replace (pos + (i - pos)) with i by lia.
    + split; [done |]. intros (H1 & H2 & H3). exfalso.
      apply find0_None in F. apply (F (i - pos)).
      apply ocurre_drop; [done |]. by replace (pos + (i - pos)) with i by lia.
  - split; [done |]. intros (H1 & [H2 _] & _). lia.
Qed.

Lemma find_None t pat pos :
  find t pat pos = None ↔ ∀ j, pos ≤ j → ¬ ocurre pat t j.
Proof.
  unfold find. destruct (Nat.leb_spec pos (length t)) as [Hle|Hgt].
  - destruct (find0 (drop pos t) pat) as [k|] eqn:F; simpl.
    + split; [done |]. intros H. exfalso.
      apply find0_Some in F as [F _]. apply (H (pos + k)); [lia |].
      by apply ocurre_drop.
    + split; [| done]. intros _ j Hj Hoc. apply find0_None in F.
      apply (F (j - pos)). apply ocurre_drop; [done |].
      by replace (pos + (j - pos)) with j by lia.
  - split; [| done]. intros _ j Hj [Hoc _]. lia.
Qed.

Lemma find_bound t pat pos i :
  find t pat pos = Some i → pos ≤ i ∧ i + length pat ≤ length t.
Proof.
  intros (H1 & H2 & _)%find_Some. split; [done | by apply ocurre_bound].
Qed.

Lemma ultima_unica pat t i j : ultima pat t i → ultima pat t j → i = j.
Proof.
  intros [Hi Hi'] [Hj Hj'].
  destruct (Nat.lt_trichotomy i j) as [Hlt|[Heq|Hgt]]; [| done |].
  - by apply Hi' in Hlt.
  - by apply Hj' in Hgt.
Qed.

Lemma rfind0_spec s pat :
  match rfind0 s pat with
  | Some i => ultima pat s i
  | None => ausente pat s
  end.
Proof.
  induction s as [|c s IH]; simpl.
  - destruct (empieza pat []) eqn:E.
    + apply empieza_prefix in E. split; [by apply ocurre_0 |].
      intros j Hj Hoc. apply ocurre_nil in Hoc. lia.
    + apply empieza_false in E. intros i Hoc.
      pose proof (ocurre_nil _ _ Hoc). subst. by apply ocurre_0 in Hoc.
  - destruct (rfind0 s pat) as [i|].
    + destruct IH as [IH1 IH2]. split; [by apply ocurre_S |].
      intros [|j] Hj; [lia |]. rewrite ocurre_S. apply IH2. lia.
    + destruct (empieza pat (c :: s)) eqn:E.
      * apply empieza_prefix in E. split; [by apply ocurre_0 |].
        intros [|j] Hj; [lia |]. rewrite ocurre_S. apply IH.
      * apply empieza_false in E. intros [|j]; [by rewrite ocurre_0 |].
        rewrite ocurre_S. apply IH.
Qed.

(** [s.rfind(pat)] is the last occurrence. *)
Lemma rfind_Some t pat i : rfind t pat = Some i ↔ ultima pat t i.
Proof.
  unfold rfind. pose proof (rfind0_spec t pat) as H.
  destruct (rfind0 t pat) as [k|].
  - split; [by intros [= <-] |]. intros Hu. f_equal. by eapply ultima_unica.
  - split; [done |]. intros [Hoc _]. by apply H in Hoc.
Qed.

Lemma rfind_None t pat : rfind t pat = None ↔ ausente pat t.
Proof.
  unfold rfind. pose proof (rfind0_spec t pat) as H.
  destruct (rfind0 t pat) as [k|].
  - split; [done |]. intros Ha. destruct H as [Hoc _]. by apply Ha in Hoc.
  - done.
Qed.

Lemma rfind_bound t pat i : rfind t pat = Some i → i + length pat ≤ length t.
Proof. intros [H _]%rfind_Some. by apply ocurre_bound. Qed.

(** An occurrence of a one-character pattern is that character. *)
Lemma ocurre_char c t i : ocurre [c] t i ↔ t !! i = Some c.
Proof.
  unfold ocurre. split.
  - intros [_ [k Hk]].
    rewrite <- (Nat.add_0_r i), <- lookup_drop, Hk. done.
  - intros H. split; [apply lookup_lt_Some in H; lia |].
    exists (drop (S i) t). by rewrite (drop_S _ _ _ H).
Qed.

Lemma rfind_char_Some s c pos i :
  rfind_char s c pos = Some i ↔ ultimo_char_hasta c s pos i.
Proof.
  unfold rfind_char, ultimo_char_hasta. fold (rfind (take (S pos) s) [c]).
  rewrite rfind_Some. unfold ultima. rewrite ocurre_char. split.
  - intros [H1 H2]. apply lookup_take_Some in H1 as [H1 Hlt].
    split; [lia |]. split; [done |]. intros j Hj1 Hj2 Hc.
    apply (H2 j Hj1). apply ocurre_char. rewrite lookup_take_lt; [done | lia].
  - intros (H1 & H2 & H3). split.
    + rewrite lookup_take_lt; [done | lia].
    + intros j Hj Hoc. apply ocurre_char in Hoc.
      apply lookup_take_Some in Hoc as [Hoc Hlt]. apply (H3 j); [done | lia | done].
Qed.

Lemma rfind_char_None s c pos :
  rfind_char s c pos = None ↔ ∀ j, j ≤ pos → s !! j ≠ Some c.
Proof.
  unfold rfind_char. fold (rfind (take (S pos) s) [c]).
  rewrite rfind_None. unfold ausente. split.
  - intros H j Hj Hc. apply (H j). apply ocurre_char.
    rewrite lookup_take_lt; [done | lia].
  - intros H j Hoc. apply ocurre_char in Hoc.
    apply lookup_take_Some in Hoc as [Hoc Hlt]. apply (H j); [lia | done].
Qed.

(** ** The normaliser *)

Lemma find_first_not_of_None s chars :
  find_first_not_of s chars = None ↔ Forall (λ c, c ∈ chars) s.
Proof.
  induction s as [|c s IH]; simpl; [done |].
  case_bool_decide as Hc.
  - destruct (find_first_not_of s chars); simpl.
    + split; [done |]. intros H. apply Forall_cons in H as [_ H].
      by apply IH in H.
    + split; [| done]. intros _. apply Forall_cons. split; [done | by apply IH].
  - split; [done |]. intros H. by apply Forall_cons in H as [H _].
Qed.

Lemma find_first_not_of_Some s chars i :
  find_first_not_of s chars = Some i →
  (∃ c, s !! i = Some c ∧ c ∉ chars) ∧ Forall (λ c, c ∈ chars) (take i s).
Proof.
  revert i. induction s as [|c s IH]; intros i; simpl; [done |].
  case_bool_decide as Hc.
  - destruct (find_first_not_of s chars) as [k|]; simpl; [| done].
    intros [= <-]. destruct (IH k eq_refl) as [H1 H2]. split; [done |].
    simpl. by apply Forall_cons.
  - intros [= <-]. split; [by exists c | by apply Forall_nil].
Qed.

Lemma find_last_not_of_spec s chars :
  match find_last_not_of s chars with
  | Some e =>
      (∃ c, s !! e = Some c ∧ c ∉ chars) ∧ Forall (λ c, c ∈ chars) (drop (S e) s)
  | None => Forall (λ c, c ∈ chars) s
  end.
Proof.
  induction s as [|c s IH]; simpl; [done |].
  destruct (find_last_not_of s chars) as [e|]; [done |].
  case_bool_decide as Hc.
  - by apply Forall_cons.
  - split; [by exists c | by rewrite drop_0].
Qed.

Lemma find_first_not_of_bound s chars i :
  find_first_not_of s chars = Some i → i < length s.
Proof.
  intros [(c & H & _) _]%find_first_not_of_Some. by apply lookup_lt_Some in H.
Qed.

(** Once [find_first_not_of] has found a character, so does
    [find_last_not_of], at the same index or further. *)
Lemma find_last_not_of_is_Some s chars i :
  find_first_not_of s chars = Some i →
  ∃ e, find_last_not_of s chars = Some e ∧ i ≤ e.
Proof.
  intros [(c & Hc & Hn) Hi]%find_first_not_of_Some.
  pose proof (find_last_not_of_spec s chars) as H.
  destruct (find_last_not_of s chars) as [e|].
  - exists e. split; [done |]. destruct H as [(c' & Hc' & Hn') _].
    destruct (Nat.le_gt_cases i e) as [|Hlt]; [done |]. exfalso.
    apply Hn'. rewrite Forall_lookup in Hi. apply (Hi e).
    by rewrite lookup_take_lt.
  - exfalso. apply Hn. rewrite Forall_lookup in H. by apply (H i).
Qed.

Lemma find_last_not_of_last s chars c :
  last s = Some c → c ∉ chars →
  find_last_not_of s chars = Some (length s - 1).
Proof.
  intros Hl Hc. induction s as [|x [|y s] IH]; [done | |].
  - simpl in *. injection Hl as ->. by rewrite bool_decide_eq_false_2.
  - rewrite last_cons_cons in Hl. specialize (IH Hl).
    change (find_last_not_of (x :: y :: s) chars)
      with (match find_last_not_of (y :: s) chars with
            | Some i => Some (S i)
            | None => if bool_decide (x ∈ chars) then None else Some 0
            end).
    rewrite IH. simpl. f_equal. lia.
Qed.

(** [trim] cuts white space from both ends and nothing else. *)
Lemma trim_decomp s :
  ∃ a b, s = a ++ trim s ++ b ∧
         Forall blanco a ∧ Forall blanco b ∧ recortada (trim s).
Proof.
  unfold trim. destruct (find_first_not_of s whitespace) as [st|] eqn:F.
  - destruct (find_last_not_of_is_Some _ _ _ F) as (e & L & Hle).
    rewrite L. unfold substr.
    apply find_first_not_of_Some in F as [(c & Hc & Hn) Hi].
    pose proof (find_last_not_of_spec s whitespace) as H. rewrite L in H.
    destruct H as [(c' & Hc' & Hn') He].
    exists (take st s), (drop (S e) s). split; [| split; [done | split; [done |]]].
    + rewrite <- (take_drop st s) at 1. f_equal.
      rewrite <- (take_drop (e - st + 1) (drop st s)) at 1. f_equal.
      rewrite drop_drop. f_equal. lia.
    + assert (length (take (e - st + 1) (drop st s)) = e - st + 1) as Hlen.
      { rewrite length_take, length_drop. apply lookup_lt_Some in Hc'. lia. }
      split; intros x Hx.
      * rewrite head_lookup, lookup_take_lt, lookup_drop, Nat.add_0_r in Hx
          by lia. rewrite Hc in Hx. by injection Hx as <-.
      * rewrite last_lookup, Hlen, lookup_take_lt, lookup_drop in Hx by lia.
        replace (st + pred (e - st + 1)) with e in Hx by lia.
        rewrite Hc' in Hx. by injection Hx as <-.
  - exists s, []. rewrite app_nil_r. split; [done |].
    split; [by apply find_first_not_of_None |]. split; [done |].
    split; intros c; done.
Qed.

Lemma trim_recortada t : recortada t → trim t = t.
Proof.
  intros [Hh Hl]. destruct t as [|c t]; [done |].
  unfold trim.
  assert (find_first_not_of (c :: t) whitespace = Some 0) as ->.
  { simpl. rewrite bool_decide_eq_false_2; [done |]. by apply Hh. }
  destruct (last (c :: t)) as [c'|] eqn:E.
  - rewrite (find_last_not_of_last _ _ c' E); [| by apply Hl].
    unfold substr. rewrite drop_0. apply take_ge. simpl. lia.
  - by apply last_None in E.
Qed.

Lemma trim_idemp s : trim (trim s) = trim s.
Proof.
  destruct (trim_decomp s) as (a & b & _ & _ & _ & H). by apply trim_recortada.
Qed.

Lemma trim_nil s : trim s = [] ↔ Forall blanco s.
Proof.
  split.
  - intros H. destruct (trim_decomp s) as (a & b & Hs & Ha & Hb & _).
    rewrite H in Hs. rewrite Hs. simpl. by apply Forall_app.
  - intros H. unfold trim.
    by rewrite (proj2 (find_first_not_of_None s whitespace) H).
Qed.

Lemma length_toLower s : length (toLower s) = length s.
Proof. apply length_fmap. Qed.

(** ** Splitting an antecedent *)

Lemma primera_unica pat t i j : primera pat t i → primera pat t j → i = j.
Proof.
  intros (_ & Hi & Hi') (_ & Hj & Hj').
  destruct (Nat.lt_trichotomy i j) as [Hlt|[Heq|Hgt]]; [| done |].
  - exfalso. apply (Hj' i); [lia | done | done].
  - exfalso. apply (Hi' j); [lia | done | done].
Qed.

Lemma Partes_funcional pat s ps1 ps2 :
  Partes pat s ps1 → Partes pat s ps2 → ps1 = ps2.
Proof.
  intros H1. revert ps2. induction H1 as [s Ha|s i ps Hp _ IH]; intros ps2 H2.
  - inversion H2 as [|? j ? (_ & Hoc & _)]; subst; [done |]. by apply Ha in Hoc.
  - inversion H2 as [? Ha|? j ? Hp']; subst.
    + destruct Hp as (_ & Hoc & _). by apply Ha in Hoc.
    + pose proof (primera_unica _ _ _ _ Hp Hp') as <-. f_equal. by apply IH.
Qed.

Lemma Partes_length pat s ps : Partes pat s ps → 1 ≤ length ps.
Proof. intros []; simpl; lia. Qed.

Lemma Partes_primera_length pat s ps i :
  primera pat (toLower s) i → Partes pat s ps → 2 ≤ length ps.
Proof.
  intros (_ & Hoc & _) HP. inversion HP as [? Ha|? j ps' _ H]; subst.
  - by apply Ha in Hoc.
  - apply Partes_length in H. simpl. lia.
Qed.

Lemma toLower_drop n s : toLower (drop n s) = drop n (toLower s).
Proof. apply fmap_drop. Qed.

(** The loop of [parsearAntecedente] computes the pieces, provided the
    bound on its turns exceeds the text still to be searched. *)
Lemma separar_Partes turnos alfaStr op start literalesStr :
  op ≠ [] → start ≤ length alfaStr → length alfaStr < turnos + start →
  ∃ ps,
    separar turnos alfaStr (toLower alfaStr) op start
      (find (toLower alfaStr) op start) literalesStr
    = literalesStr ++ (trim <$> ps)
    ∧ Partes op (drop start alfaStr) ps.
Proof.
  intros Hop. revert start literalesStr.
  induction turnos as [|turnos IH]; intros start acc Hstart Hturnos.
  - lia.
  - destruct (find (toLower alfaStr) op start) as [p|] eqn:F.
    + pose proof (find_bound _ _ _ _ F) as [Hp1 Hp2].
      rewrite length_toLower in Hp2.
      assert (0 < length op) by (destruct op; [done | simpl; lia]).
      simpl. destruct turnos as [|turnos'].
      { lia. }
      destruct (IH (p + length op)
                  (acc ++ [trim (substr alfaStr start (p - start))]))
        as (ps & Heq & Hps); [lia | lia |].
      exists (take (p - start) (drop start alfaStr) :: ps). split.
      * rewrite Heq, <- app_assoc. done.
      * apply Partes_corte.
        -- apply find_Some in F as (_ & Hoc & Hmin).
           rewrite toLower_drop. split; [lia |]. split.
           ++ apply ocurre_drop; [by rewrite length_toLower |].
              by replace (start + (p - start)) with p by lia.
           ++ intros j _ Hj Hoc'.
              apply ocurre_drop in Hoc'; [| by rewrite length_toLower].
              apply (Hmin (start + j)); [lia | lia | done].
        -- rewrite drop_drop.
           by replace (start + (p - start + length op)) with (p + length op)
             by lia.
    + exists [drop start alfaStr]. split; [done |].
      apply Partes_fin. rewrite toLower_drop. intros j Hoc.
      apply ocurre_drop in Hoc; [| by rewrite length_toLower].
      rewrite find_None in F. apply (F (start + j)); [lia | done].
Qed.

(** No larger bound changes what the loop returns. *)
Lemma separar_fuel t1 t2 alfaStr op start literalesStr :
  op ≠ [] → start ≤ length alfaStr →
  length alfaStr < t1 + start → length alfaStr < t2 + start →
  separar t1 alfaStr (toLower alfaStr) op start
    (find (toLower alfaStr) op start) literalesStr
  = separar t2 alfaStr (toLower alfaStr) op start
      (find (toLower alfaStr) op start) literalesStr.
Proof.
  intros Hop Hs H1 H2.
  destruct (separar_Partes t1 alfaStr op start literalesStr)
    as (ps1 & -> & P1); [done..|].
  destruct (separar_Partes t2 alfaStr op start literalesStr)
    as (ps2 & -> & P2); [done..|].
  by rewrite (Partes_funcional _ _ _ _ P1 P2).
Qed.

Lemma separar_inicio alfaStr op :
  op ≠ [] →
  ∃ ps,
    separar (S (length alfaStr)) alfaStr (toLower alfaStr) op 0
      (find (toLower alfaStr) op 0) [] = trim <$> ps
    ∧ Partes op alfaStr ps.
Proof.
  intros Hop.
  destruct (separar_Partes (S (length alfaStr)) alfaStr op 0 [])
    as (ps & Heq & Hps); [done | lia | lia |].
  exists ps. rewrite drop_0 in Hps. done.
Qed.

Lemma find_primera t pat i : find t pat 0 = Some i ↔ primera pat t i.
Proof. apply find_Some. Qed.

Lemma find_ausente t pat : find t pat 0 = None ↔ ausente pat t.
Proof.
  rewrite find_None. unfold ausente. split; [| by auto].
  intros H i. apply H. lia.
Qed.

Lemma literales_Seleccion alfaStr : Seleccion alfaStr (literales alfaStr).
Proof.
  unfold literales.
  destruct (separar_inicio alfaStr opY) as (psY & -> & HY); [done |].
  destruct (separar_inicio alfaStr opO) as (psO & -> & HO); [done |].
  destruct (find (toLower alfaStr) opY 0) as [y|] eqn:FY;
    destruct (find (toLower alfaStr) opO 0) as [o|] eqn:FO; simpl.
  - apply find_primera in FY, FO.
    destruct (Nat.ltb_spec y o) as [Hlt|Hge].
    + eapply Seleccion_Y; eauto.
    + eapply Seleccion_O; eauto.
  - apply find_primera in FY. apply find_ausente in FO.
    eapply Seleccion_Y; eauto.
  - apply find_ausente in FY. apply find_primera in FO.
    eapply Seleccion_O; eauto.
  - apply find_ausente in FY, FO. by apply Seleccion_NINGUNO.
Qed.

(** ** The antecedent parser *)

Lemma Seleccion_funcional alfaStr r1 r2 :
  Seleccion alfaStr r1 → Seleccion alfaStr r2 → r1 = r2.
Proof.
  intros H1 H2.
  inversion H1 as [i ps Hy Ho HP|j ps Ho Hy HP|Hy Ho];
    inversion H2 as [i' ps' Hy' Ho' HP'|j' ps' Ho' Hy' HP'|Hy' Ho']; subst.
  - by rewrite (Partes_funcional _ _ _ _ HP HP').
  - exfalso. destruct Ho as [Ho|(j & Ho & Hlt)].
    + destruct Ho' as (_ & Hoc & _). by apply Ho in Hoc.
    + pose proof (primera_unica _ _ _ _ Ho Ho') as ->.
      destruct Hy' as [Hy'|(i' & Hy' & Hle)].
      * destruct Hy as (_ & Hoc & _). by apply Hy' in Hoc.
      * pose proof (primera_unica _ _ _ _ Hy Hy') as ->. lia.
  - exfalso. destruct Hy as (_ & Hoc & _). by apply Hy' in Hoc.
  - exfalso. destruct Ho' as [Ho'|(j' & Ho' & Hlt)].
    + destruct Ho as (_ & Hoc & _). by apply Ho' in Hoc.
    + pose proof (primera_unica _ _ _ _ Ho Ho') as ->.
      destruct Hy as [Hy|(i & Hy & Hle)].
      * destruct Hy' as (_ & Hoc & _). by apply Hy in Hoc.
      * pose proof (primera_unica _ _ _ _ Hy Hy') as ->. lia.
  - by rewrite (Partes_funcional _ _ _ _ HP HP').
  - exfalso. destruct Ho as (_ & Hoc & _). by apply Ho' in Hoc.
  - exfalso. destruct Hy' as (_ & Hoc & _). by apply Hy in Hoc.
  - exfalso. destruct Ho' as (_ & Hoc & _). by apply Ho in Hoc.
  - done.
Qed.

Lemma agregar_completo literalesStr conds conds' cerr :
  agregar literalesStr conds = (true, conds', cerr) →
  conds' = conds ++ (Hecho_con_nombre <$> literalesStr)
  ∧ Forall (λ l, l ≠ []) literalesStr ∧ cerr = [].
Proof.
  revert conds. induction literalesStr as [|l ls IH]; intros conds; simpl.
  - intros [= <- <-]. by rewrite app_nil_r.
  - destruct l as [|c l]; simpl; [done |].
    intros (-> & Hf & ->)%IH. rewrite <- app_assoc. by repeat constructor.
Qed.

Lemma agregar_incompleto literalesStr conds conds' cerr :
  agregar literalesStr conds = (false, conds', cerr) →
  [] ∈ literalesStr ∧ cerr = [EmptyLiteral].
Proof.
  revert conds. induction literalesStr as [|l ls IH]; intros conds; simpl.
  - done.
  - destruct l as [|c l]; simpl.
    + intros [= <- <-]. split; [apply list_elem_of_here | done].
    + intros [H ->]%IH. split; [by apply list_elem_of_further | done].
Qed.

Lemma Seleccion_no_vacia alfaStr op ls : Seleccion alfaStr (op, ls) → ls ≠ [].
Proof.
  inversion 1 as [i ps _ _ HP|j ps _ _ HP|]; subst; [| | done];
    apply Partes_length in HP; destruct ps; simpl in *; (lia || done).
Qed.

(** What a successful call returns, for any antecedent passed in. *)
Lemma parsearAntecedente_exito alfaStr a0 a cerr :
  parsearAntecedente alfaStr a0 = (true, a, cerr) →
  Seleccion alfaStr (operador a, (literales alfaStr).2)
  ∧ condiciones a
    = condiciones a0 ++ (Hecho_con_nombre <$> (literales alfaStr).2)
  ∧ Forall (λ l, l ≠ []) (literales alfaStr).2
  ∧ cerr = [].
Proof.
  unfold parsearAntecedente.
  pose proof (literales_Seleccion alfaStr) as HS.
  destruct (literales alfaStr) as [op ls].
  destruct (agregar ls (condiciones a0)) as [[completo conds] cerr'] eqn:E.
  destruct completo; [| done].
  apply agregar_completo in E as (-> & Hf & ->).
  intros [= _ <- <-]. done.
Qed.

(** C2. [parsearAntecedente] selects the operator and the literals as the
    specification says: with [" y "] and [" o "] matched as literal
    substrings of the case-folded text, the operator is Y when [" y "]
    occurs and [" o "] either does not occur or first occurs after the
    first [" y "], and the original text is then cut at every [" y "],
    left to right, each piece trimmed; otherwise it is O with the same cut at [" o "] when
    [" o "] occurs; otherwise it is NINGUNO and the trimmed text is the
    only literal ([Seleccion]). The antecedent returned has that operator
    and, when the call succeeds, these literals as the names of the
    conditions it adds, in order; it fails exactly when a literal is
    empty. *)
Theorem parsearAntecedente_seleccion (alfaStr : cadena) (a0 : Antecedente) :
  Seleccion alfaStr (literales alfaStr)
  ∧ match parsearAntecedente alfaStr a0 with
    | (ok, a, _) =>
        operador a = (literales alfaStr).1
        ∧ if ok
          then nombre <$> condiciones a
               = (nombre <$> condiciones a0) ++ (literales alfaStr).2
               ∧ [] ∉ (literales alfaStr).2
          else [] ∈ (literales alfaStr).2
    end.
Proof.
  split; [apply literales_Seleccion |].
  unfold parsearAntecedente.
  pose proof (Seleccion_no_vacia alfaStr) as Hne.
  pose proof (literales_Seleccion alfaStr) as HS.
  destruct (literales alfaStr) as [op ls]. specialize (Hne _ _ HS).
  destruct (agregar ls (condiciones a0)) as [[completo conds] cerr] eqn:E.
  destruct completo; simpl.
  - apply agregar_completo in E as (-> & Hf & ->).
    destruct ls as [|l ls]; [done |].
    replace (vacia (condiciones a0 ++ (Hecho_con_nombre <$> (l :: ls))))
      with false by (by destruct (condiciones a0)).
    simpl. split; [done |]. split.
    + rewrite fmap_app. f_equal. simpl. f_equal.
      rewrite <- list_fmap_compose. by rewrite list_fmap_id.
    + intros Hin. rewrite Forall_forall in Hf. by apply (Hf [] Hin).
  - apply agregar_incompleto in E as [H _]. done.
Qed.

(** Two operators in one text: the first delimiter found decides, and the
    other one stays inside a literal. *)
Example literales_mezcla :
  literales (lit "a o B y c o d")
  = (OperadorLogico.O, [lit "a"; lit "B y c"; lit "d"]).
Proof. reflexivity. Qed.

Example parsearAntecedente_literal_vacio :
  parsearAntecedente (lit " y ") Antecedente_defecto
  = (false, {| condiciones := []; operador := OperadorLogico.Y |},
     [EmptyLiteral]).
Proof. reflexivity. Qed.

(** C9. When [parsearAntecedente] succeeds on an antecedent that had no
    conditions yet (that of a new rule, the only one the program passes),
    the conditions of the result are not empty, and an antecedent with
    operator NINGUNO has exactly one condition. *)
Theorem parsearAntecedente_invariante (alfaStr : cadena)
    (a0 a : Antecedente) (cerr : list Diagnostico) :
  condiciones a0 = [] →
  parsearAntecedente alfaStr a0 = (true, a, cerr) →
  condiciones a ≠ []
  ∧ (operador a = OperadorLogico.NINGUNO → length (condiciones a) = 1).
Proof.
  intros H0 (HS & -> & _ & _)%parsearAntecedente_exito. rewrite H0.
  simpl. split.
  - apply Seleccion_no_vacia in HS. by destruct ((literales alfaStr).2).
  - intros Hop. rewrite Hop in HS. inversion HS as [| |? ? Heq]. done.
Qed.

Lemma parsearAntecedente_invariante_witness :
  parsearAntecedente (lit "h4") Antecedente_defecto
  = (true, {| condiciones := [Hecho_con_nombre (lit "h4")];
              operador := OperadorLogico.NINGUNO |}, [])
  ∧ [Hecho_con_nombre (lit "h4")] ≠ []
  ∧ (OperadorLogico.NINGUNO = OperadorLogico.NINGUNO →
     length [Hecho_con_nombre (lit "h4")] = 1).
Proof.
  split; [reflexivity |].
  apply (parsearAntecedente_invariante (lit "h4") Antecedente_defecto
           {| condiciones := [Hecho_con_nombre (lit "h4")];
              operador := OperadorLogico.NINGUNO |} []).
  - reflexivity.
  - reflexivity.
Defined.

(** C10. When [parsearAntecedente] succeeds with operator Y or O on an
    antecedent that had no conditions yet, the result has at least two
    conditions, and the name of each is not empty and is trimmed. *)
Theorem parsearAntecedente_operador_binario (alfaStr : cadena)
    (a0 a : Antecedente) (cerr : list Diagnostico) :
  condiciones a0 = [] →
  parsearAntecedente alfaStr a0 = (true, a, cerr) →
  operador a = OperadorLogico.Y ∨ operador a = OperadorLogico.O →
  2 ≤ length (condiciones a)
  ∧ Forall (λ h, nombre h ≠ [] ∧ trim (nombre h) = nombre h) (condiciones a).
Proof.
  intros H0 (HS & -> & Hf & _)%parsearAntecedente_exito Hop. rewrite H0.
  simpl.
  rewrite length_fmap, Forall_fmap.
  destruct (literales alfaStr) as [op0 ls]; simpl in *.
  assert (∃ pat i ps, ls = trim <$> ps ∧ primera pat (toLower alfaStr) i
                      ∧ Partes pat alfaStr ps)
    as (pat & i & ps & -> & Hp & HP).
  { inversion HS as [i ps Hp _ HP [Heq1 Heq2]|j ps Hp _ HP [Heq1 Heq2]
                    |Hy Ho [Heq1 Heq2]].
    - by exists opY, i, ps.
    - by exists opO, j, ps.
    - rewrite <- Heq1 in Hop. by destruct Hop. }
  split.
  - rewrite length_fmap. by eapply Partes_primera_length.
  - rewrite Forall_fmap in Hf |- *.
    eapply Forall_impl; [exact Hf |]. simpl. intros p Hne.
    split; [done | apply trim_idemp].
Qed.

Lemma parsearAntecedente_operador_binario_witness :
  parsearAntecedente (lit "h5 y h6") Antecedente_defecto
  = (true, {| condiciones := [Hecho_con_nombre (lit "h5");
                              Hecho_con_nombre (lit "h6")];
              operador := OperadorLogico.Y |}, [])
  ∧ 2 ≤ length [Hecho_con_nombre (lit "h5"); Hecho_con_nombre (lit "h6")]
  ∧ Forall (λ h, nombre h ≠ [] ∧ trim (nombre h) = nombre h)
      [Hecho_con_nombre (lit "h5"); Hecho_con_nombre (lit "h6")].
Proof.
  split; [reflexivity |].
  apply (parsearAntecedente_operador_binario (lit "h5 y h6")
           Antecedente_defecto
           {| condiciones := [Hecho_con_nombre (lit "h5");
                              Hecho_con_nombre (lit "h6")];
              operador := OperadorLogico.Y |} []).
  - reflexivity.
  - reflexivity.
  - left. reflexivity.
Defined.

(** ** The count line *)

Lemma leer_digitos_n dig base s acc n :
  n ≤ (leer_digitos dig base s acc n).1.2.
Proof.
  revert acc n. induction s as [|c s IH]; intros acc n; simpl; [lia |].
  destruct (dig c); simpl; [| lia]. specialize (IH (base * acc + z)%Z (S n)). lia.
Qed.

Lemma stoi_invalid_argument s : stoi s = invalid_argument ↔ sin_numero s.
Proof.
  unfold stoi, sin_numero.
  destruct (leer_signo (saltar_espacios s)) as [neg s1]. simpl.
  destruct s1 as [|c s1]; simpl; [done |].
  destruct (digito c) as [d|] eqn:D; simpl.
  - pose proof (leer_digitos_n digito 10 s1 (10 * 0 + d)%Z 1) as Hn.
    destruct (leer_digitos digito 10 s1 (10 * 0 + d)%Z 1) as [[v n] r].
    simpl in Hn. destruct n as [|n]; [lia |]. simpl.
    split; [| done]. by repeat case_match.
  - done.
Qed.

(** ** The loops over the lines *)

Lemma vacia_false {A} (l : list A) : l ≠ [] → vacia l = false.
Proof. by destruct l. Qed.

(** A number too large or too small for a binary64 makes [std::stod]
    throw; in a rule line this happens at line 185, before the keywords
    [Si] and [Entonces] are looked for. A subnormal number that is
    represented without rounding is read. *)
Example stod_fuera_de_rango :
  stod (lit "1e309") = out_of_range
  ∧ stod (lit "1e-310") = out_of_range
  ∧ stod (lit "0x1p-1030") = Valor (Finito (Qmake 1 (2 ^ 1030)))
  ∧ regla_de_linea (lit "R1: Si h2 Entonces h1, FC=1e-310")
    = Sale Lanza_out_of_range []
  ∧ regla_de_linea (lit "R3: Si h5 y h6 h3, FC=1e-400")
    = Sale Lanza_out_of_range []
  ∧ hecho_de_linea (lit "h2, FC=1e-400") = Sale Lanza_out_of_range [].
Proof. by vm_compute. Qed.

Lemma regla_de_linea_no_vacia l r : regla_de_linea l = Sigue r → l ≠ [].
Proof. by intros H ->. Qed.

Lemma hecho_de_linea_no_vacia l h : hecho_de_linea l = Sigue h → l ≠ [].
Proof. by intros H ->. Qed.

Lemma bucle_reglas_valida n l r archivo bc :
  regla_de_linea (trim l) = Sigue r →
  bucle_reglas (S n) (l :: archivo) bc
  = bucle_reglas n archivo {| reglas := reglas bc ++ [r] |}.
Proof.
  intros H. simpl. rewrite H.
  by rewrite (vacia_false _ (regla_de_linea_no_vacia _ _ H)).
Qed.

Lemma bucle_reglas_fallo n l r cerr archivo bc :
  trim l ≠ [] → regla_de_linea (trim l) = Sale r cerr →
  bucle_reglas (S n) (l :: archivo) bc = (Sale r cerr, bc).
Proof. intros Hne H. simpl. by rewrite H, (vacia_false _ Hne). Qed.

Lemma bucle_reglas_previas n previas rs resto bc :
  reglas_previas previas = Some rs → length rs < n →
  bucle_reglas n (previas ++ resto) bc
  = bucle_reglas (n - length rs) resto {| reglas := reglas bc ++ rs |}.
Proof.
  revert n rs bc. induction previas as [|l ls IH]; intros n rs bc; simpl.
  - intros [= <-] _. rewrite app_nil_r, Nat.sub_0_r. by destruct bc.
  - intros Hrs Hn. destruct n as [|n]; [lia |].
    destruct (vacia (trim l)) eqn:E.
    + by apply IH.
    + destruct (regla_de_linea (trim l)) as [r|]; [| done].
      destruct (reglas_previas ls) as [rs'|] eqn:E'; [| done].
      injection Hrs as <-. simpl in Hn.
      rewrite (IH n rs'); [| done | lia]. simpl. by rewrite <- app_assoc.
Qed.

Lemma bucle_hechos_fallo n l r cerr archivo bh :
  trim l ≠ [] → hecho_de_linea (trim l) = Sale r cerr →
  bucle_hechos (S n) (l :: archivo) bh = (Sale r cerr, bh).
Proof. intros Hne H. simpl. by rewrite H, (vacia_false _ Hne). Qed.

Lemma bucle_hechos_previos n previas hs resto bh :
  hechos_previos previas = Some hs → length hs < n →
  bucle_hechos n (previas ++ resto) bh
  = bucle_hechos (n - length hs) resto (foldl (flip agregar_hecho) bh hs).
Proof.
  revert n hs bh. induction previas as [|l ls IH]; intros n hs bh; simpl.
  - intros [= <-] _. by rewrite Nat.sub_0_r.
  - intros Hhs Hn. destruct n as [|n]; [lia |].
    destruct (vacia (trim l)) eqn:E.
    + by apply IH.
    + destruct (hecho_de_linea (trim l)) as [h|]; [| done].
      destruct (hechos_previos ls) as [hs'|] eqn:E'; [| done].
      injection Hhs as <-. simpl in Hn.
      rewrite (IH n hs'); [| done | lia]. done.
Qed.

(** The facts and the memory after a run of facts is added. *)
Lemma agregar_hechos_iniciales bh hs :
  hechos_iniciales (foldl (flip agregar_hecho) bh hs)
  = hechos_iniciales bh ++ hs.
Proof.
  revert bh. induction hs as [|h hs IH]; intros bh; simpl.
  - by rewrite app_nil_r.
  - rewrite IH. simpl. by rewrite <- app_assoc.
Qed.

Lemma agregar_fc_memoria bh hs :
  fc_memoria (foldl (flip agregar_hecho) bh hs)
  = foldl (λ m h, <[nombre h := factorCerteza h]> m) (fc_memoria bh) hs.
Proof.
  revert bh. induction hs as [|h hs IH]; intros bh; simpl; [done |].
  by rewrite IH.
Qed.

Lemma agregar_objetivo bh hs :
  objetivo (foldl (flip agregar_hecho) bh hs) = objetivo bh.
Proof.
  revert bh. induction hs as [|h hs IH]; intros bh; simpl; [done |].
  by rewrite IH.
Qed.

(** ** The working memory *)

Lemma ultimo_fc_snoc n hs h :
  ultimo_fc n (hs ++ [h])
  = if decide (nombre h = n) then Some (factorCerteza h) else ultimo_fc n hs.
Proof.
  unfold ultimo_fc. rewrite filter_app.
  case_decide as Hn.
  - rewrite filter_cons_True, filter_nil, last_snoc by done. done.
  - rewrite filter_cons_False, filter_nil, app_nil_r by done. done.
Qed.

Lemma ultimo_fc_is_Some n hs :
  is_Some (ultimo_fc n hs) ↔ n ∈ nombre <$> hs.
Proof.
  unfold ultimo_fc. rewrite fmap_is_Some, last_is_Some, list_elem_of_fmap.
  split.
  - intros Hne. destruct (filter (λ h, nombre h = n) hs) as [|h l] eqn:E; [done |].
    assert (h ∈ filter (λ h, nombre h = n) hs) as Hin
      by (rewrite E; apply list_elem_of_here).
    apply list_elem_of_filter in Hin as [Hh Hin]. by exists h.
  - intros (h & -> & Hin) E.
    assert (h ∈ filter (λ h', nombre h' = nombre h) hs) as Hin'
      by (by apply list_elem_of_filter).
    rewrite E in Hin'. by apply not_elem_of_nil in Hin'.
Qed.

(** Whatever way the loop ends, it has only added facts. *)
Lemma bucle_hechos_agrega n archivo bh p bh' :
  bucle_hechos n archivo bh = (p, bh') →
  ∃ hs, bh' = foldl (flip agregar_hecho) bh hs.
Proof.
  revert n bh. induction archivo as [|l ls IH]; intros n bh.
  - destruct n; simpl; intros [= _ <-]; by exists [].
  - destruct n as [|n]; simpl; [intros [= _ <-]; by exists [] |].
    destruct (vacia (trim l)); [apply IH |].
    destruct (hecho_de_linea (trim l)) as [h|].
    + intros (hs & ->)%IH. by exists (h :: hs).
    + intros [= _ <-]. by exists [].
Qed.

(** Reading the goal touches neither the facts nor the memory. *)
Lemma leer_objetivo_conserva archivo leido bh r bh' cerr :
  leer_objetivo archivo leido bh = (r, bh', cerr) →
  hechos_iniciales bh' = hechos_iniciales bh
  ∧ fc_memoria bh' = fc_memoria bh.
Proof.
  revert leido. induction archivo as [|l ls IH]; intros leido; simpl.
  - repeat case_match; by intros [= _ <- _].
  - destruct (vacia (trim l)); [apply IH |].
    destruct leido; simpl.
    + repeat case_match; by intros [= _ <- _].
    + case_bool_decide; [apply IH | by intros [= _ <- _]].
Qed.

(** The shape of every run of [cargarHechos] that gets past the count. *)
Lemma cargarHechos_agrega archivo bh r bh' cerr :
  cargarHechos archivo bh = (r, bh', cerr) →
  ∃ hs, hechos_iniciales bh' = hechos_iniciales bh ++ hs
        ∧ fc_memoria bh'
          = foldl (λ m h, <[nombre h := factorCerteza h]> m) (fc_memoria bh) hs.
Proof.
  assert (∀ b : BaseHechos, ∃ hs, hechos_iniciales b = hechos_iniciales b ++ hs
            ∧ fc_memoria b
              = foldl (λ m h, <[nombre h := factorCerteza h]> m) (fc_memoria b) hs)
    as Hnada by (intros b; exists []; by rewrite app_nil_r).
  unfold cargarHechos. destruct archivo as [archivo|]; [| by intros [= _ <- _]].
  destruct (getline archivo) as [[linea resto]|]; [| by intros [= _ <- _]].
  destruct (stoi (trim linea)) as [n| |]; [| by intros [= _ <- _]..].
  destruct (bucle_hechos (Z.to_nat n) resto bh) as [[resto'|r' cerr'] bh1] eqn:E;
    apply bucle_hechos_agrega in E as [hs ->].
  - destruct (leer_objetivo resto' false _) as [[r2 bh2] cerr2] eqn:E2.
    apply leer_objetivo_conserva in E2 as [H1 H2]. intros [= _ <- _].
    exists hs. by rewrite H1, H2, agregar_hechos_iniciales, agregar_fc_memoria.
  - intros [= _ <- _]. exists hs.
    by rewrite agregar_hechos_iniciales, agregar_fc_memoria.
Qed.

Lemma foldl_insertar_sembrada (m : gmap cadena double) hs0 hs :
  (∀ n, m !! n = ultimo_fc n hs0) →
  ∀ n, foldl (λ m h, <[nombre h := factorCerteza h]> m) m hs !! n
       = ultimo_fc n (hs0 ++ hs).
Proof.
  revert m hs0. induction hs as [|h hs IH]; intros m hs0 H n; simpl.
  - by rewrite app_nil_r.
  - rewrite (IH _ (hs0 ++ [h])); [by rewrite <- app_assoc |].
    intros n'. rewrite ultimo_fc_snoc, lookup_insert.
    case_decide; [done | apply H].
Qed.

(** C7. After a successful [cargarHechos] on a fact base whose memory was
    seeded from its facts (an empty one, as [main] passes, is), the
    working memory maps each name to the certainty of the last initial
    fact of that name, holds exactly the names of the initial facts, and
    is the memory on entry with the loaded facts written in file order:
    nothing is written to it once the facts are read. *)
Theorem cargarHechos_memoria (archivo : option (list cadena))
    (bh bh' : BaseHechos) (cerr : list Diagnostico) :
  memoria_sembrada bh →
  cargarHechos archivo bh = (Devuelve true, bh', cerr) →
  (∀ n, fc_memoria bh' !! n = ultimo_fc n (hechos_iniciales bh'))
  ∧ (∀ n, is_Some (fc_memoria bh' !! n) ↔ n ∈ nombre <$> hechos_iniciales bh')
  ∧ ∃ hs, hechos_iniciales bh' = hechos_iniciales bh ++ hs
          ∧ fc_memoria bh'
            = foldl (λ m h, <[nombre h := factorCerteza h]> m)
                (fc_memoria bh) hs.
Proof.
  intros Hbh (hs & H1 & H2)%cargarHechos_agrega.
  assert (∀ n, fc_memoria bh' !! n = ultimo_fc n (hechos_iniciales bh')) as H.
  { intros n. rewrite H1, H2. by apply foldl_insertar_sembrada. }
  split; [done |]. split; [| by exists hs].
  intros n. rewrite H. apply ultimo_fc_is_Some.
Qed.

Lemma cargarHechos_memoria_witness :
  memoria_sembrada BaseHechos_defecto
  ∧ (cargarHechos (Some hechos_repetido) BaseHechos_defecto).1.1
    = Devuelve true
  ∧ fc_memoria (cargarHechos (Some hechos_repetido) BaseHechos_defecto).1.2
      !! lit "h4"
    = ultimo_fc (lit "h4")
        [ {| nombre := lit "h2"; factorCerteza := Finito (3 # 10) |};
          {| nombre := lit "h4"; factorCerteza := Finito (3 # 5) |};
          {| nombre := lit "h4"; factorCerteza := Finito (1 # 2) |} ].
Proof.
  assert (memoria_sembrada BaseHechos_defecto) as H0
    by (intros n; apply lookup_empty).
  split; [exact H0 |]. split; [reflexivity |].
  destruct (cargarHechos_memoria (Some hechos_repetido) BaseHechos_defecto
              (cargarHechos (Some hechos_repetido) BaseHechos_defecto).1.2
              [] H0 eq_refl) as [H _].
  exact (H (lit "h4")).
Defined.

(** ** Diagnostics *)

Lemma agregar_cerr ls conds ok conds' cerr :
  agregar ls conds = (ok, conds', cerr) → cerr = [] ∨ cerr = [EmptyLiteral].
Proof.
  destruct ok.
  - intros (_ & _ & ->)%agregar_completo. by left.
  - intros [_ ->]%agregar_incompleto. by right.
Qed.

Lemma parsearAntecedente_cerr alfaStr a0 ok a cerr :
  parsearAntecedente alfaStr a0 = (ok, a, cerr) →
  cerr = [] ∨ cerr = [EmptyLiteral].
Proof.
  unfold parsearAntecedente. destruct (literales alfaStr) as [op ls].
  destruct (agregar ls (condiciones a0)) as [[completo conds] cerr'] eqn:E.
  apply agregar_cerr in E. destruct completo; by intros [= _ _ <-].
Qed.

(** A line that fails is reported by an error, never by the warning on the
    count, and the function does not return [true] for it. *)
Local Ltac no_esta :=
  let H := fresh in
  intros H;
  repeat (apply elem_of_cons in H as [H|H]; [discriminate H |]);
  by apply elem_of_nil in H.

Local Ltac sale_directo :=
  inversion 1; subst; split; [done | no_esta].

Lemma regla_desde_marcador_sale r_id def posFc posComa r cerr :
  regla_desde_marcador r_id def posFc posComa = Sale r cerr →
  r ≠ Devuelve true ∧ CountMismatch ∉ cerr.
Proof.
  unfold regla_desde_marcador, regla_de_clausula.
  destruct (stod _); [| sale_directo..].
  destruct (find _ siMarker 0) as [[|?]|]; [| sale_directo..].
  destruct (find _ entoncesMarker _); [| sale_directo].
  destruct (vacia _); [sale_directo |].
  destruct (vacia _); [sale_directo |].
  destruct (parsearAntecedente _ _) as [[ok ant] cerr'] eqn:E.
  apply parsearAntecedente_cerr in E.
  destruct ok; [done |]. inversion 1; subst.
  split; [done |]. destruct E as [-> | ->]; simpl; no_esta.
Qed.

Lemma regla_de_linea_sale l r cerr :
  regla_de_linea l = Sale r cerr →
  r ≠ Devuelve true ∧ CountMismatch ∉ cerr.
Proof.
  unfold regla_de_linea.
  destruct (find l _ 0); [| sale_directo].
  destruct (rfind _ fcMarkerLower); [| sale_directo].
  destruct (rfind_char _ _ _); [| sale_directo].
  apply regla_desde_marcador_sale.
Qed.

Lemma bucle_reglas_sale n archivo bc r cerr bc' :
  bucle_reglas n archivo bc = (Sale r cerr, bc') →
  r ≠ Devuelve true ∧ CountMismatch ∉ cerr.
Proof.
  revert n bc. induction archivo as [|l ls IH]; intros n bc.
  - destruct n; simpl; [done |]. intros [= <- <- _]. split; [done | no_esta].
  - destruct n as [|n]; simpl; [done |].
    destruct (vacia (trim l)); [apply IH |].
    destruct (regla_de_linea (trim l)) as [r'|r' cerr'] eqn:E; [apply IH |].
    intros [= <- <- _]. by apply regla_de_linea_sale in E.
Qed.

Lemma size_distinto_mas (k n : nat) :
  size_distinto (k + n) (Z.of_nat n) = negb (k =? 0) ∨ (2 ^ 64 ≤ Z.of_nat n)%Z.
Proof.
  destruct (Z.le_gt_cases (2 ^ 64) (Z.of_nat n)) as [|Hlt]; [by right |].
  left. unfold size_distinto. rewrite Z.mod_small by lia. f_equal.
  destruct (Nat.eqb_spec k 0) as [->|Hk].
  - by apply Z.eqb_eq.
  - apply Z.eqb_neq. lia.
Qed.

(** C3, as the code has it. With a count of 3 and two well-formed rule
    lines, [cargarReglas] fails with [UnexpectedEOF] (the two rules stay in
    the knowledge base). With a count of 2 and three well-formed lines it
    succeeds and loads the first two only; the warning [CountMismatch] is
    then written only if the knowledge base held rules on entry, never for
    the line left unread. Whenever [CountMismatch] is written the call
    returns [true]. *)
Theorem cargarReglas_cuenta (c l1 l2 l3 : cadena) (r1 r2 r3 : Regla)
    (bc : BaseConocimiento) :
  regla_de_linea (trim l1) = Sigue r1 →
  regla_de_linea (trim l2) = Sigue r2 →
  regla_de_linea (trim l3) = Sigue r3 →
  (stoi (trim c) = Valor 3%Z →
   cargarReglas (Some [c; l1; l2]) bc
   = (Devuelve false, {| reglas := reglas bc ++ [r1; r2] |}, [UnexpectedEOF]))
  ∧ (stoi (trim c) = Valor 2%Z →
     cargarReglas (Some [c; l1; l2; l3]) bc
     = (Devuelve true, {| reglas := reglas bc ++ [r1; r2] |},
        if vacia (reglas bc) then [] else [CountMismatch]))
  ∧ (∀ archivo r bc' cerr,
       cargarReglas archivo bc = (r, bc', cerr) →
       CountMismatch ∈ cerr → r = Devuelve true).
Proof.
  intros H1 H2 H3. split; [| split].
  - intros Hc. unfold cargarReglas, getline. rewrite Hc.
    replace (Z.to_nat 3) with 3 by reflexivity.
    rewrite (bucle_reglas_valida _ _ _ _ _ H1), (bucle_reglas_valida _ _ _ _ _ H2).
    simpl. by rewrite <- app_assoc.
  - intros Hc. unfold cargarReglas, getline. rewrite Hc.
    replace (Z.to_nat 2) with 2 by reflexivity.
    rewrite (bucle_reglas_valida _ _ _ _ _ H1), (bucle_reglas_valida _ _ _ _ _ H2).
    simpl. rewrite <- app_assoc. simpl. do 2 f_equal.
    rewrite length_app. simpl.
    pose proof (size_distinto_mas (length (reglas bc)) 2) as Hs.
    change (Z.of_nat 2) with 2%Z in Hs. destruct Hs as [-> | Hbig]; [| lia].
    by destruct (reglas bc).
  - intros archivo r bc' cerr. unfold cargarReglas.
    destruct archivo as [archivo|];
      [| intros [= <- _ <-] H; exfalso; revert H; no_esta].
    destruct (getline archivo) as [[linea resto]|];
      [| intros [= <- _ <-] H; exfalso; revert H; no_esta].
    destruct (stoi (trim linea)) as [n| |];
      [| intros [= <- _ <-] H; exfalso; revert H; no_esta..].
    destruct (bucle_reglas (Z.to_nat n) resto bc) as [[resto'|r' cerr'] bc1] eqn:E.
    + by intros [= <- _ _].
    + apply bucle_reglas_sale in E as [_ E]. by intros [= <- _ <-].
Qed.

Lemma cargarReglas_cuenta_witness :
  regla_de_linea (trim linea_R1) = Sigue regla_R1
  ∧ regla_de_linea (trim linea_R2) = Sigue regla_R2
  ∧ regla_de_linea (trim linea_R3) = Sigue regla_R3
  ∧ stoi (trim (lit "3")) = Valor 3%Z
  ∧ stoi (trim (lit "2")) = Valor 2%Z
  ∧ cargarReglas (Some [lit "3"; linea_R1; linea_R2]) BaseConocimiento_defecto
    = (Devuelve false, {| reglas := [regla_R1; regla_R2] |}, [UnexpectedEOF])
  ∧ cargarReglas (Some [lit "2"; linea_R1; linea_R2; linea_R3])
      BaseConocimiento_defecto
    = (Devuelve true, {| reglas := [regla_R1; regla_R2] |}, []).
Proof.
  do 5 (split; [reflexivity |]). split.
  - apply (cargarReglas_cuenta (lit "3") linea_R1 linea_R2 linea_R3
             regla_R1 regla_R2 regla_R3 BaseConocimiento_defecto);
      reflexivity.
  - apply (cargarReglas_cuenta (lit "2") linea_R1 linea_R2 linea_R3
             regla_R1 regla_R2 regla_R3 BaseConocimiento_defecto);
      reflexivity.
Defined.

(** C3, as the claim states it, fails: with a count of 2 and three
    well-formed lines nothing is written to [std::cerr]. *)
Lemma cargarReglas_linea_sobrante :
  cargarReglas (Some [lit "2"; linea_R1; linea_R2; linea_R3])
    BaseConocimiento_defecto
  = (Devuelve true, {| reglas := [regla_R1; regla_R2] |}, [])
  ∧ CountMismatch
    ∉ (cargarReglas (Some [lit "2"; linea_R1; linea_R2; linea_R3])
         BaseConocimiento_defecto).2.
Proof. split; [reflexivity |]. vm_compute. no_esta. Qed.

(** ** A line that fails leaves the containers as they were *)

Lemma regla_de_linea_sin_entonces linea :
  sin_entonces linea →
  regla_de_linea linea = Sale (Devuelve false) [MissingKeyword].
Proof.
  intros (posColon & posFc & posComa & fc & H1 & H2 & H3 & H4 & H5).
  unfold regla_de_linea. rewrite H1, H2, H3.
  unfold regla_desde_marcador, regla_de_clausula. rewrite H4.
  destruct (find _ siMarker 0) as [[|?]|]; [| done..].
  destruct (find _ entoncesMarker _) as [p|] eqn:F; [| done].
  apply find_Some in F as (_ & F & _). by apply H5 in F.
Qed.

Lemma rfind_sin_caracter s c : c ∉ s → rfind s [c] = None.
Proof.
  intros H. apply rfind_None. intros i Hi%ocurre_char.
  apply H. by eapply list_elem_of_lookup_2.
Qed.

Lemma hecho_de_linea_sin_coma linea :
  ","%char ∉ linea →
  hecho_de_linea linea = Sale (Devuelve false) [MissingDelimiter].
Proof. intros H. unfold hecho_de_linea. by rewrite rfind_sin_caracter. Qed.

Lemma cargarReglas_linea_fallida c n previas linea resto bc rs r cerr :
  stoi (trim c) = Valor n → trim linea ≠ [] →
  reglas_previas previas = Some rs → length rs < Z.to_nat n →
  regla_de_linea (trim linea) = Sale r cerr →
  cargarReglas (Some (c :: previas ++ linea :: resto)) bc
  = (r, {| reglas := reglas bc ++ rs |}, cerr).
Proof.
  intros Hc Hne Hrs Hn Hl. unfold cargarReglas, getline. rewrite Hc.
  rewrite (bucle_reglas_previas _ _ _ _ _ Hrs Hn).
  destruct (Z.to_nat n - length rs) as [|k] eqn:E; [lia |].
  by rewrite (bucle_reglas_fallo _ _ _ _ _ _ Hne Hl).
Qed.

Lemma cargarHechos_linea_fallida c n previas linea resto bh hs r cerr :
  stoi (trim c) = Valor n → trim linea ≠ [] →
  hechos_previos previas = Some hs → length hs < Z.to_nat n →
  hecho_de_linea (trim linea) = Sale r cerr →
  cargarHechos (Some (c :: previas ++ linea :: resto)) bh
  = (r, foldl (flip agregar_hecho) bh hs, cerr).
Proof.
  intros Hc Hne Hhs Hn Hl. unfold cargarHechos, getline. rewrite Hc.
  rewrite (bucle_hechos_previos _ _ _ _ _ Hhs Hn).
  destruct (Z.to_nat n - length hs) as [|k] eqn:E; [lia |].
  by rewrite (bucle_hechos_fallo _ _ _ _ _ _ Hne Hl).
Qed.

(** C6. A line that fails changes nothing in the container. Let the count
    line be followed by lines [previas], each blank or well formed, fewer
    than the count, and then by a line [linea] that is not blank. If
    [linea] fails as a rule, [cargarReglas] returns with that failure and
    the knowledge base holds the rules it held on entry followed by those
    of [previas], and no other; so it is when the clause of [linea] has no
    [" entonces "], where the failure is [MissingKeyword]. If [linea]
    fails as a fact, [cargarHechos] returns with that failure, the initial
    facts are those on entry followed by those of [previas], and the
    working memory is the one on entry with just these written; so it is
    when [linea] has no comma, where the failure is [MissingDelimiter]. *)
Theorem carga_atomica (c : cadena) (n : Z) (previas : list cadena)
    (linea : cadena) (resto : list cadena) :
  stoi (trim c) = Valor n →
  trim linea ≠ [] →
  (∀ bc rs,
     reglas_previas previas = Some rs → length rs < Z.to_nat n →
     (∀ r cerr,
        regla_de_linea (trim linea) = Sale r cerr →
        cargarReglas (Some (c :: previas ++ linea :: resto)) bc
        = (r, {| reglas := reglas bc ++ rs |}, cerr))
     ∧ (sin_entonces (trim linea) →
        cargarReglas (Some (c :: previas ++ linea :: resto)) bc
        = (Devuelve false, {| reglas := reglas bc ++ rs |}, [MissingKeyword])))
  ∧ (∀ bh hs,
       hechos_previos previas = Some hs → length hs < Z.to_nat n →
       (∀ r cerr,
          hecho_de_linea (trim linea) = Sale r cerr →
          ∃ bh',
            cargarHechos (Some (c :: previas ++ linea :: resto)) bh
            = (r, bh', cerr)
            ∧ hechos_iniciales bh' = hechos_iniciales bh ++ hs
            ∧ fc_memoria bh'
              = foldl (λ m h, <[nombre h := factorCerteza h]> m)
                  (fc_memoria bh) hs
            ∧ objetivo bh' = objetivo bh)
       ∧ (","%char ∉ trim linea →
          ∃ bh',
            cargarHechos (Some (c :: previas ++ linea :: resto)) bh
            = (Devuelve false, bh', [MissingDelimiter])
            ∧ hechos_iniciales bh' = hechos_iniciales bh ++ hs
            ∧ fc_memoria bh'
              = foldl (λ m h, <[nombre h := factorCerteza h]> m)
                  (fc_memoria bh) hs
            ∧ objetivo bh' = objetivo bh)).
Proof.
  intros Hc Hne. split.
  - intros bc rs Hrs Hn. split.
    + intros r cerr Hl. by eapply cargarReglas_linea_fallida.
    + intros Hl%regla_de_linea_sin_entonces.
      by eapply cargarReglas_linea_fallida.
  - intros bh hs Hhs Hn.
    assert (∀ r cerr, hecho_de_linea (trim linea) = Sale r cerr →
            ∃ bh',
              cargarHechos (Some (c :: previas ++ linea :: resto)) bh
              = (r, bh', cerr)
              ∧ hechos_iniciales bh' = hechos_iniciales bh ++ hs
              ∧ fc_memoria bh'
                = foldl (λ m h, <[nombre h := factorCerteza h]> m)
                    (fc_memoria bh) hs
              ∧ objetivo bh' = objetivo bh) as H.
    { intros r cerr Hl. exists (foldl (flip agregar_hecho) bh hs).
      split; [by eapply cargarHechos_linea_fallida |].
      by rewrite agregar_hechos_iniciales, agregar_fc_memoria,
           agregar_objetivo. }
    split; [exact H |].
    intros Hl%hecho_de_linea_sin_coma. by apply H.
Qed.

Lemma carga_atomica_witness :
  cargarReglas
    (Some (lit "3" :: [linea_R1; lit "  "; linea_R2]
             ++ linea_sin_entonces :: [linea_R4]))
    BaseConocimiento_defecto
  = (Devuelve false, {| reglas := [regla_R1; regla_R2] |}, [MissingKeyword])
  ∧ ∃ bh',
      cargarHechos
        (Some (lit "3" :: [lit "h2, FC=0.3"; []; lit "h4, FC=0.6"]
                 ++ linea_sin_coma :: [lit "Objetivo"; lit "h1"]))
        BaseHechos_defecto
      = (Devuelve false, bh', [MissingDelimiter])
      ∧ hechos_iniciales bh'
        = [] ++ [ {| nombre := lit "h2"; factorCerteza := Finito (3 # 10) |};
                  {| nombre := lit "h4"; factorCerteza := Finito (3 # 5) |} ]
      ∧ fc_memoria bh'
        = foldl (λ m h, <[nombre h := factorCerteza h]> m) ∅
            [ {| nombre := lit "h2"; factorCerteza := Finito (3 # 10) |};
              {| nombre := lit "h4"; factorCerteza := Finito (3 # 5) |} ]
      ∧ objetivo bh' = Hecho_defecto.
Proof.
  split.
  - assert (sin_entonces (trim linea_sin_entonces)) as Hsin.
    { exists 2, 15, 13, (Finito (7 # 10)).
      split; [reflexivity |]. split; [reflexivity |].
      split; [reflexivity |]. split; [reflexivity |].
      apply find_ausente. reflexivity. }
    destruct (carga_atomica (lit "3") 3 [linea_R1; lit "  "; linea_R2]
                linea_sin_entonces [linea_R4] eq_refl
                ltac:(by vm_compute)) as [HR _].
    destruct (HR BaseConocimiento_defecto [regla_R1; regla_R2] eq_refl
                ltac:(vm_compute; lia)) as [_ H].
    exact (H Hsin).
  - destruct (carga_atomica (lit "3") 3
                [lit "h2, FC=0.3"; []; lit "h4, FC=0.6"]
                linea_sin_coma [lit "Objetivo"; lit "h1"] eq_refl
                ltac:(by vm_compute)) as [_ HH].
    destruct (HH BaseHechos_defecto
                [ {| nombre := lit "h2"; factorCerteza := Finito (3 # 10) |};
                  {| nombre := lit "h4"; factorCerteza := Finito (3 # 5) |} ]
                eq_refl ltac:(vm_compute; lia)) as [_ H].
    apply H. vm_compute. no_esta.
Defined.

(** ** The files of [main] *)

(** C1. On the rules file that [main] writes, whose lines end in
    [FC = 0.5] with a space on each side of the equals sign, [cargarReglas]
    returns [false] at the first rule and loads nothing: the marker [fc=]
    is looked up literally and the text [fc =] does not contain it. *)
Theorem cargarReglas_Prueba_1 :
  cargarReglas (Some Prueba_1_reglas) BaseConocimiento_defecto
  = (Devuelve false, BaseConocimiento_defecto, [MissingFCMarker]).
Proof. reflexivity. Qed.

(** The same file with the marker written [FC=] loads as four rules. *)
Lemma cargarReglas_sin_espacio :
  cargarReglas (Some [lit "4"; linea_R1; linea_R2; linea_R3; linea_R4])
    BaseConocimiento_defecto
  = (Devuelve true, {| reglas := [regla_R1; regla_R2; regla_R3; regla_R4] |},
     []).
Proof. reflexivity. Qed.

(** The facts file of [main] fails in the same way. *)
Lemma cargarHechos_Prueba_1 :
  cargarHechos (Some Prueba_1_hechos) BaseHechos_defecto
  = (Devuelve false, BaseHechos_defecto, [MissingKeyword]).
Proof. reflexivity. Qed.

(** C8, as the code has it. When the first line, trimmed, does not begin
    with a number (after an optional sign there is no decimal digit), both
    loaders return [false] with [InvalidCount] and leave the container as
    it was; and a loader that returns [true] has read a count from the
    first line. Text after the digits of the count is not looked at. *)
Theorem cargar_cuenta_invalida (linea : cadena) (resto : list cadena)
    (bc : BaseConocimiento) (bh : BaseHechos) :
  (sin_numero (trim linea) →
   cargarReglas (Some (linea :: resto)) bc = (Devuelve false, bc, [InvalidCount])
   ∧ cargarHechos (Some (linea :: resto)) bh
     = (Devuelve false, bh, [InvalidCount]))
  ∧ (∀ bc' cerr,
       cargarReglas (Some (linea :: resto)) bc = (Devuelve true, bc', cerr) →
       ∃ n, stoi (trim linea) = Valor n)
  ∧ (∀ bh' cerr,
       cargarHechos (Some (linea :: resto)) bh = (Devuelve true, bh', cerr) →
       ∃ n, stoi (trim linea) = Valor n).
Proof.
  unfold cargarReglas, cargarHechos, getline. split; [| split].
  - intros H%stoi_invalid_argument. by rewrite H.
  - intros bc' cerr. destruct (stoi (trim linea)) as [n| |]; [eauto | done..].
  - intros bh' cerr. destruct (stoi (trim linea)) as [n| |]; [eauto | done..].
Qed.

Lemma cargar_cuenta_invalida_witness :
  sin_numero (trim (lit " cuatro"))
  ∧ cargarReglas (Some [lit " cuatro"; linea_R1]) BaseConocimiento_defecto
    = (Devuelve false, BaseConocimiento_defecto, [InvalidCount])
  ∧ cargarHechos (Some [lit " cuatro"; linea_R1]) BaseHechos_defecto
    = (Devuelve false, BaseHechos_defecto, [InvalidCount]).
Proof.
  assert (sin_numero (trim (lit " cuatro"))) as H by reflexivity.
  split; [exact H |].
  exact (proj1 (cargar_cuenta_invalida (lit " cuatro") [linea_R1]
                  BaseConocimiento_defecto BaseHechos_defecto) H).
Defined.

(** C8, as the claim states it, fails: a first line that is not an integer
    but begins with one is taken as a count. *)
Lemma cargar_cuenta_con_texto :
  es_entero (trim (lit "2 reglas")) = false
  ∧ cargarReglas (Some [lit "2 reglas"; linea_R1; linea_R2])
      BaseConocimiento_defecto
    = (Devuelve true, {| reglas := [regla_R1; regla_R2] |}, [])
  ∧ es_entero (trim (lit "1 hecho")) = false
  ∧ (cargarHechos (Some [lit "1 hecho"; lit "h2, FC=0.3"; lit "Objetivo";
                         lit "h1"]) BaseHechos_defecto).1.1
    = Devuelve true.
Proof. repeat split; reflexivity. Qed.

(** ** The goal *)





(** ** Where the marker of the certainty factor is looked for *)

Lemma find_0_prefix t pat : find t pat 0 = Some 0 ↔ pat `prefix_of` t.
Proof.
  rewrite find_Some. unfold primera_desde. rewrite ocurre_0. split.
  - by intros (_ & H & _).
  - intros H. split; [done |]. split; [done |]. intros; lia.
Qed.

(** C4. The two loaders look for the marker [fc=] in different places.
    In a rule line, with [def] the trimmed text after the first colon: the
    marker is the last occurrence of [fc=] in the case-folded [def], and
    without one the line fails with [MissingFCMarker]; the clause ends at
    the last comma at or before the marker, and without one the line fails
    with [MissingDelimiter]; otherwise the number is read from the text
    after the marker and the clause is the text before that comma, both
    trimmed. In a fact line: without a comma the line fails with
    [MissingDelimiter]; otherwise the name is the trimmed text before the
    last comma, and the trimmed text after it, case-folded, must begin
    with [fc=], or the line fails with [MissingKeyword]; the number is
    read from what follows these three characters. *)
Theorem marcador_fc (linea : cadena) :
  (∀ posColon,
     primera [":"%char] linea posColon →
     let def := trim (substr_from linea (posColon + 1)) in
     (ausente fcMarkerLower (toLower def) →
      regla_de_linea linea = Sale (Devuelve false) [MissingFCMarker])
     ∧ (∀ posFc,
          ultima fcMarkerLower (toLower def) posFc →
          ((∀ j, j ≤ posFc → def !! j ≠ Some ","%char) →
           regla_de_linea linea = Sale (Devuelve false) [MissingDelimiter])
          ∧ (∀ posComa,
               ultimo_char_hasta ","%char def posFc posComa →
               regla_de_linea linea
               = match stod (trim (substr_from def
                                     (posFc + length fcMarkerLower))) with
                 | Valor fc =>
                     regla_de_clausula (trim (substr linea 0 posColon)) fc
                       (trim (substr def 0 posComa))
                 | invalid_argument => Sale (Devuelve false) [InvalidNumber]
                 | out_of_range => Sale Lanza_out_of_range []
                 end)))
  ∧ (","%char ∉ linea →
     hecho_de_linea linea = Sale (Devuelve false) [MissingDelimiter])
  ∧ (∀ posComa,
       ultima [","%char] linea posComa →
       let fcParte := trim (substr_from linea (posComa + 1)) in
       (¬ fcMarkerLower `prefix_of` toLower fcParte →
        hecho_de_linea linea = Sale (Devuelve false) [MissingKeyword])
       ∧ (fcMarkerLower `prefix_of` toLower fcParte →
          hecho_de_linea linea
          = match stod (trim (substr_from fcParte (length fcMarkerLower))) with
            | Valor fc =>
                Sigue {| nombre := trim (substr linea 0 posComa);
                         factorCerteza := fc |}
            | invalid_argument => Sale (Devuelve false) [InvalidNumber]
            | out_of_range => Sale Lanza_out_of_range []
            end)).
Proof.
  split; [| split].
  - intros posColon HC%find_primera def. unfold regla_de_linea.
    rewrite HC. fold def. split.
    + intros H%rfind_None. by rewrite H.
    + intros posFc HF%rfind_Some. rewrite HF. split.
      * intros H%rfind_char_None. by rewrite H.
      * intros posComa H%rfind_char_Some. by rewrite H.
  - apply hecho_de_linea_sin_coma.
  - intros posComa HC%rfind_Some fcParte. unfold hecho_de_linea.
    rewrite HC. fold fcParte. split.
    + intros H. destruct (find (toLower fcParte) fcMarkerLower 0)
        as [[|k]|] eqn:F; [| done..].
      by apply find_0_prefix in F.
    + intros H%find_0_prefix. by rewrite H.
Qed.

Lemma marcador_fc_witness :
  regla_de_linea linea_dos_marcadores
  = Sigue (regla_de "R7" OperadorLogico.NINGUNO ["a"]%string "fc=b, c" (1 # 2))
  ∧ hecho_de_linea linea_dos_comas
    = Sigue {| nombre := lit "h2, x"; factorCerteza := Finito (3 # 10) |}.
Proof.
  split.
  - destruct (marcador_fc linea_dos_marcadores) as [H _].
    destruct (H 2 ltac:(apply find_primera; reflexivity)) as [_ H'].
    destruct (H' 23 ltac:(apply rfind_Some; reflexivity)) as [_ H''].
    exact (H'' 21 ltac:(apply rfind_char_Some; reflexivity)).
  - destruct (marcador_fc linea_dos_comas) as (_ & _ & H).
    destruct (H 5 ltac:(apply rfind_Some; reflexivity)) as [_ H'].
    apply H'. apply empieza_prefix. reflexivity.
Defined.

(** * Further properties *)

(** ** [trim] and [toLower] *)

Lemma find_first_not_of_app_blancos a x chars :
  Forall (λ c, c ∈ chars) a →
  find_first_not_of (a ++ x) chars
  = (λ i, length a + i) <$> find_first_not_of x chars.
Proof.
  induction 1 as [|c a Hc _ IH]; simpl.
  - by destruct (find_first_not_of x chars).
  - rewrite bool_decide_eq_true_2 by done. rewrite IH.
    by destruct (find_first_not_of x chars).
Qed.

Lemma find_last_not_of_blancos b chars :
  Forall (λ c, c ∈ chars) b → find_last_not_of b chars = None.
Proof.
  induction 1 as [|c b Hc _ IH]; simpl; [done |].
  by rewrite IH, bool_decide_eq_true_2.
Qed.

Lemma find_last_not_of_app_blancos x b chars :
  Forall (λ c, c ∈ chars) b →
  find_last_not_of (x ++ b) chars = find_last_not_of x chars.
Proof.
  intros Hb. induction x as [|c x IH]; simpl.
  - by apply find_last_not_of_blancos.
  - by rewrite IH.
Qed.

Lemma find_last_not_of_app_l a x chars e :
  find_last_not_of x chars = Some e →
  find_last_not_of (a ++ x) chars = Some (length a + e).
Proof.
  intros H. induction a as [|c a IH]; simpl; [done |]. by rewrite IH.
Qed.

Lemma trim_app_recortada a t b :
  Forall blanco a → Forall blanco b → recortada t → trim (a ++ t ++ b) = t.
Proof.
  intros Ha Hb [Hh Hl]. destruct t as [|c t].
  - simpl. apply trim_nil. by apply Forall_app.
  - destruct (last (c :: t)) as [c'|] eqn:E; [| by apply last_None in E].
    unfold trim.
    assert (find_first_not_of (a ++ (c :: t) ++ b) whitespace
            = Some (length a)) as ->.
    { rewrite find_first_not_of_app_blancos by done. simpl.
      rewrite bool_decide_eq_false_2 by (by apply Hh). simpl.
      f_equal. lia. }
    assert (find_last_not_of (a ++ (c :: t) ++ b) whitespace
            = Some (length a + (length (c :: t) - 1))) as ->.
    { rewrite (app_assoc a), find_last_not_of_app_blancos by done.
      apply find_last_not_of_app_l.
      by apply (find_last_not_of_last _ _ c' E), Hl. }
    unfold substr. rewrite drop_app_length.
    replace (length a + (length (c :: t) - 1) - length a + 1)
      with (length (c :: t)) by (simpl; lia).
    apply take_app_length.
Qed.

Lemma trim_app_blancos a s b :
  Forall blanco a → Forall blanco b → trim (a ++ s ++ b) = trim s.
Proof.
  intros Ha Hb. destruct (trim_decomp s) as (a' & b' & Hs & Ha' & Hb' & Hr).
  rewrite Hs at 1.
  replace (a ++ (a' ++ trim s ++ b') ++ b)
    with ((a ++ a') ++ trim s ++ (b' ++ b)) by (by rewrite <- !app_assoc).
  apply trim_app_recortada; [by apply Forall_app.. | done].
Qed.

(** X1. [trim] is cutting the white space at both ends: [trim s] is [t]
    exactly when [s] is [t] between two runs of white space and [t] has
    no white space at either end. *)
Theorem trim_caracterizacion (s t : cadena) :
  trim s = t
  ↔ ∃ a b, s = a ++ t ++ b
           ∧ Forall blanco a ∧ Forall blanco b ∧ recortada t.
Proof.
  split.
  - intros <-. apply trim_decomp.
  - intros (a & b & -> & Ha & Hb & Ht). by apply trim_app_recortada.
Qed.

(** X2. [trim] is idempotent, gives the empty text exactly for a text of
    white space only, and does not see white space added at either end. *)
Theorem trim_estable (s a b : cadena) :
  trim (trim s) = trim s
  ∧ (trim s = [] ↔ Forall blanco s)
  ∧ (Forall blanco a → Forall blanco b → trim (a ++ s ++ b) = trim s).
Proof.
  split; [apply trim_idemp |]. split; [apply trim_nil |].
  apply trim_app_blancos.
Qed.

Lemma trim_estable_witness :
  Forall blanco (lit "  ") ∧ Forall blanco [ "009"%char ]
  ∧ trim (lit "  " ++ lit "h2 o h3" ++ [ "009"%char ]) = trim (lit "h2 o h3").
Proof.
  assert (Forall blanco (lit "  ")) as Ha by (repeat constructor).
  assert (Forall blanco [ "009"%char ]) as Hb by (repeat constructor).
  split; [exact Ha |]. split; [exact Hb |].
  exact (proj2 (proj2 (trim_estable (lit "h2 o h3") (lit "  ")
                         [ "009"%char ])) Ha Hb).
Defined.

Lemma tolower_idemp c : tolower (tolower c) = tolower c.
Proof. by destruct c as [[] [] [] [] [] [] [] []]. Qed.

Lemma tolower_blanco c :
  bool_decide (tolower c ∈ whitespace) = bool_decide (c ∈ whitespace).
Proof. by destruct c as [[] [] [] [] [] [] [] []]. Qed.

Lemma find_first_not_of_toLower s :
  find_first_not_of (toLower s) whitespace = find_first_not_of s whitespace.
Proof.
  induction s as [|c s IH]; simpl; [done |].
  fold (toLower s). by rewrite tolower_blanco, IH.
Qed.

Lemma find_last_not_of_toLower s :
  find_last_not_of (toLower s) whitespace = find_last_not_of s whitespace.
Proof.
  induction s as [|c s IH]; simpl; [done |].
  fold (toLower s). by rewrite tolower_blanco, IH.
Qed.

Lemma toLower_idemp s : toLower (toLower s) = toLower s.
Proof.
  unfold toLower. rewrite <- list_fmap_compose. apply list_fmap_ext.
  intros i c _. apply tolower_idemp.
Qed.

Lemma trim_toLower s : trim (toLower s) = toLower (trim s).
Proof.
  unfold trim. rewrite find_first_not_of_toLower, find_last_not_of_toLower.
  destruct (find_first_not_of s whitespace) as [st|]; [| done].
  destruct (find_last_not_of s whitespace) as [e|]; [| done].
  unfold substr, toLower. by rewrite fmap_take, fmap_drop.
Qed.

(** X3. [toLower] keeps the length, is idempotent, and commutes with
    [trim]: case folding neither makes nor removes white space. *)
Theorem toLower_normaliza (s : cadena) :
  length (toLower s) = length s
  ∧ toLower (toLower s) = toLower s
  ∧ trim (toLower s) = toLower (trim s).
Proof.
  split; [apply length_toLower |]. split; [apply toLower_idemp |].
  apply trim_toLower.
Qed.

(** ** Letter case in an antecedent *)

Lemma toLower_take n s : toLower (take n s) = take n (toLower s).
Proof. apply fmap_take. Qed.

Lemma separar_toLower turnos alfaStr alfaLower op start pos literalesStr :
  separar turnos (toLower alfaStr) alfaLower op start pos
    (toLower <$> literalesStr)
  = toLower <$> separar turnos alfaStr alfaLower op start pos literalesStr.
Proof.
  revert start pos literalesStr.
  assert (∀ start acc,
            (toLower <$> acc) ++ [trim (substr_from (toLower alfaStr) start)]
            = toLower <$> (acc ++ [trim (substr_from alfaStr start)])) as Hfin.
  { intros start acc. rewrite fmap_app. simpl. unfold substr_from.
    by rewrite <- toLower_drop, trim_toLower. }
  induction turnos as [|turnos IH]; intros start pos acc;
    destruct pos as [p|]; simpl; [done | apply Hfin | | apply Hfin].
  rewrite <- IH. f_equal. rewrite fmap_app. simpl. unfold substr.
  by rewrite <- toLower_drop, <- toLower_take, trim_toLower.
Qed.

Lemma literales_toLower alfaStr :
  literales (toLower alfaStr)
  = ((literales alfaStr).1, toLower <$> (literales alfaStr).2).
Proof.
  unfold literales. rewrite toLower_idemp, length_toLower.
  destruct (hallado _ && _); cbn [fst snd].
  { by rewrite <- separar_toLower. }
  destruct (hallado _); cbn [fst snd].
  { by rewrite <- separar_toLower. }
  by rewrite trim_toLower.
Qed.

Lemma agregar_cons l ls conds :
  agregar (l :: ls) conds
  = if negb (vacia l) then agregar ls (conds ++ [Hecho_con_nombre l])
    else (false, conds, [EmptyLiteral]).
Proof. done. Qed.

Lemma vacia_toLower l : vacia (toLower l) = vacia l.
Proof. by destruct l. Qed.

Lemma agregar_toLower ls conds conds' :
  ∃ ok nuevas cerr,
    agregar ls conds = (ok, conds ++ (Hecho_con_nombre <$> nuevas), cerr)
    ∧ agregar (toLower <$> ls) conds'
      = (ok, conds' ++ (Hecho_con_nombre <$> (toLower <$> nuevas)), cerr).
Proof.
  revert conds conds'. induction ls as [|l ls IH]; intros conds conds'.
  - exists true, [], []. simpl. by rewrite !app_nil_r.
  - rewrite fmap_cons, !agregar_cons, vacia_toLower.
    destruct (vacia l); simpl.
    + exists false, [], [EmptyLiteral]. simpl. by rewrite !app_nil_r.
    + destruct (IH (conds ++ [Hecho_con_nombre l])
                  (conds' ++ [Hecho_con_nombre (toLower l)]))
        as (ok & nuevas & cerr & -> & ->).
      exists ok, (l :: nuevas), cerr. simpl. by rewrite <- !app_assoc.
Qed.

(** X4. Letter case matters to [parsearAntecedente] only in the names it
    returns. On the case-folded text it returns the same [bool], the
    same messages and the same operator, and the conditions it adds are
    those it adds for the original text with their names case-folded. *)
Theorem parsearAntecedente_toLower (alfaStr : cadena) (a0 : Antecedente) :
  ∃ ok op nuevas cerr,
    parsearAntecedente alfaStr a0
    = (ok, {| condiciones := condiciones a0 ++ (Hecho_con_nombre <$> nuevas);
              operador := op |}, cerr)
    ∧ parsearAntecedente (toLower alfaStr) a0
      = (ok, {| condiciones :=
                  condiciones a0
                  ++ (Hecho_con_nombre <$> (toLower <$> nuevas));
                operador := op |}, cerr).
Proof.
  unfold parsearAntecedente. rewrite literales_toLower.
  destruct (literales alfaStr) as [op ls]. simpl.
  destruct (agregar_toLower ls (condiciones a0) (condiciones a0))
    as (ok & nuevas & cerr & -> & ->).
  assert (∀ X Y : list cadena,
            length X = length Y →
            vacia (condiciones a0 ++ (Hecho_con_nombre <$> X))
            = vacia (condiciones a0 ++ (Hecho_con_nombre <$> Y))) as Hv.
  { intros X Y HXY. destruct (condiciones a0); [| done].
    destruct X, Y; done. }
  exists (if ok then negb (vacia (condiciones a0 ++ (Hecho_con_nombre <$> nuevas)))
          else false), op, nuevas, cerr.
  destruct ok; [| done]. split; [done |].
  by rewrite (Hv (toLower <$> nuevas) nuevas) by apply length_fmap.
Qed.

(** ** What the loaders report *)

Lemma regla_de_linea_informe l r cerr :
  regla_de_linea l = Sale r cerr →
  r ≠ Devuelve true ∧ informe_coherente r cerr.
Proof.
  unfold regla_de_linea, regla_desde_marcador, regla_de_clausula.
  destruct (find l _ 0); [| inversion 1; simpl; eauto].
  destruct (rfind _ fcMarkerLower); [| inversion 1; simpl; eauto].
  destruct (rfind_char _ _ _); [| inversion 1; simpl; eauto].
  destruct (stod _); [| inversion 1; simpl; eauto..].
  destruct (find _ siMarker 0) as [[|?]|]; [| inversion 1; simpl; eauto..].
  destruct (find _ entoncesMarker _); [| inversion 1; simpl; eauto].
  destruct (vacia _); [inversion 1; simpl; eauto |].
  destruct (vacia _); [inversion 1; simpl; eauto |].
  destruct (parsearAntecedente _ _) as [[ok ant] cerr'].
  destruct ok; [done |]. inversion 1; subst. split; [done |].
  exists AntecedentError. by rewrite last_snoc.
Qed.

Lemma hecho_de_linea_informe l r cerr :
  hecho_de_linea l = Sale r cerr →
  r ≠ Devuelve true ∧ informe_coherente r cerr.
Proof.
  unfold hecho_de_linea.
  destruct (rfind l _); [| inversion 1; simpl; eauto].
  destruct (find _ fcMarkerLower 0) as [[|?]|]; [| inversion 1; simpl; eauto..].
  destruct (stod _); [done | inversion 1; simpl; eauto..].
Qed.

Lemma bucle_reglas_informe n archivo bc r cerr bc' :
  bucle_reglas n archivo bc = (Sale r cerr, bc') →
  r ≠ Devuelve true ∧ informe_coherente r cerr.
Proof.
  revert n bc. induction archivo as [|l ls IH]; intros n bc.
  - destruct n; simpl; [done |]. intros [= <- <- _]. simpl. eauto.
  - destruct n as [|n]; simpl; [done |].
    destruct (vacia (trim l)); [apply IH |].
    destruct (regla_de_linea (trim l)) as [r'|r' cerr'] eqn:E; [apply IH |].
    intros [= <- <- _]. by apply regla_de_linea_informe in E.
Qed.

Lemma bucle_hechos_informe n archivo bh r cerr bh' :
  bucle_hechos n archivo bh = (Sale r cerr, bh') →
  r ≠ Devuelve true ∧ informe_coherente r cerr.
Proof.
  revert n bh. induction archivo as [|l ls IH]; intros n bh.
  - destruct n; simpl; [done |]. intros [= <- <- _]. simpl. eauto.
  - destruct n as [|n]; simpl; [done |].
    destruct (vacia (trim l)); [apply IH |].
    destruct (hecho_de_linea (trim l)) as [h|r' cerr'] eqn:E; [apply IH |].
    intros [= <- <- _]. by apply hecho_de_linea_informe in E.
Qed.

Lemma leer_objetivo_informe archivo leido bh r bh' cerr :
  leer_objetivo archivo leido bh = (r, bh', cerr) →
  (r = Devuelve true ∧ cerr = [])
  ∨ (r = Devuelve false ∧ ∃ e, cerr = [e] ∧ e ≠ CountMismatch).
Proof.
  revert leido. induction archivo as [|l ls IH]; intros leido; simpl.
  - destruct leido; simpl; [destruct (vacia _) |];
      intros [= <- _ <-]; eauto.
  - destruct (vacia (trim l)); [apply IH |].
    destruct leido; simpl.
    + destruct (vacia _); intros [= <- _ <-]; eauto.
    + case_bool_decide; [apply IH |]. intros [= <- _ <-]. eauto.
Qed.

(** X5. What a loader writes to [std::cerr] agrees with what it returns.
    When [cargarReglas] or [cargarHechos] returns [true] it has written
    nothing, or the warning on the count and nothing else; when it returns
    [false] the last message it wrote is an error, not that warning; when
    [std::out_of_range] leaves it, it has written nothing. *)
Theorem cargar_informe (archivo : option (list cadena))
    (bc : BaseConocimiento) (bh : BaseHechos) :
  informe_coherente (cargarReglas archivo bc).1.1 (cargarReglas archivo bc).2
  ∧ informe_coherente (cargarHechos archivo bh).1.1
      (cargarHechos archivo bh).2.
Proof.
  unfold cargarReglas, cargarHechos.
  destruct archivo as [archivo|]; [| split; simpl; eauto].
  destruct (getline archivo) as [[linea resto]|]; [| split; simpl; eauto].
  destruct (stoi (trim linea)) as [n| |]; [| split; simpl; eauto..].
  split.
  - destruct (bucle_reglas (Z.to_nat n) resto bc)
      as [[resto'|r cerr] bc1] eqn:E; simpl.
    + destruct (size_distinto _ _); eauto.
    + by apply bucle_reglas_informe in E as [_ E].
  - destruct (bucle_hechos (Z.to_nat n) resto bh)
      as [[resto'|r cerr] bh1] eqn:E.
    + destruct (leer_objetivo resto' false bh1) as [[r bh2] cerr] eqn:E2.
      simpl. apply leer_objetivo_informe in E2
        as [[-> ->]|(-> & e & -> & He)]; simpl.
      * rewrite app_nil_r. destruct (size_distinto _ _); eauto.
      * exists e. by rewrite last_snoc.
    + simpl. by apply bucle_hechos_informe in E as [_ E].
Qed.

(** ** How many entries a load adds *)

Lemma stoi_rango s n : stoi s = Valor n → (- 2 ^ 31 ≤ n < 2 ^ 31)%Z.
Proof.
  unfold stoi. destruct (leer_signo _) as [neg s1].
  destruct (leer_digitos _ _ _ _ _) as [[v k] r].
  destruct (k =? 0); [done |].
  destruct (_ && _)%bool eqn:E; [| done].
  intros [= <-]. apply andb_true_iff in E as [E1 E2].
  apply Z.leb_le in E1. apply Z.ltb_lt in E2. lia.
Qed.

Lemma bucle_reglas_sigue n archivo bc resto bc' :
  bucle_reglas n archivo bc = (Sigue resto, bc') →
  ∃ rs, reglas bc' = reglas bc ++ rs ∧ length rs = n.
Proof.
  revert n bc. induction archivo as [|l ls IH]; intros n bc.
  - destruct n; simpl; [| done]. intros [= _ <-]. exists [].
    by rewrite app_nil_r.
  - destruct n as [|n]; simpl.
    { intros [= _ <-]. exists []. by rewrite app_nil_r. }
    destruct (vacia (trim l)); [apply IH |].
    destruct (regla_de_linea (trim l)) as [r|]; [| done].
    intros (rs & -> & <-)%IH. exists (r :: rs). simpl.
    by rewrite <- app_assoc.
Qed.

Lemma bucle_hechos_sigue n archivo bh resto bh' :
  bucle_hechos n archivo bh = (Sigue resto, bh') →
  ∃ hs, bh' = foldl (flip agregar_hecho) bh hs ∧ length hs = n
        ∧ Forall (λ h, trim (nombre h) = nombre h) hs.
Proof.
  revert n bh. induction archivo as [|l ls IH]; intros n bh.
  - destruct n; simpl; [| done]. intros [= _ <-]. by exists [].
  - destruct n as [|n]; simpl.
    { intros [= _ <-]. by exists []. }
    destruct (vacia (trim l)); [apply IH |].
    destruct (hecho_de_linea (trim l)) as [h|] eqn:E; [| done].
    intros (hs & -> & <- & Hf)%IH. exists (h :: hs).
    split; [done |]. split; [done |]. constructor; [| done].
    revert E. unfold hecho_de_linea.
    destruct (rfind _ _); [| done].
    destruct (find _ fcMarkerLower 0) as [[|?]|]; [| done..].
    destruct (stod _); [| done..]. intros [= <-]. simpl. apply trim_idemp.
Qed.

Lemma size_distinto_cuenta (n : Z) :
  (0 ≤ n < 2 ^ 31)%Z → size_distinto (Z.to_nat n) n = false.
Proof.
  intros Hn. unfold size_distinto. apply negb_false_iff, Z.eqb_eq.
  rewrite Z2Nat.id, Z.mod_small by lia. done.
Qed.

(** X6. A [cargarReglas] that returns [true] has read a count from the
    first line and has added exactly that many rules (none for a negative
    count) after those the knowledge base held; into an empty knowledge
    base and with a count that is not negative it writes no warning. *)
Theorem cargarReglas_exito (archivo : option (list cadena))
    (bc bc' : BaseConocimiento) (cerr : list Diagnostico) :
  cargarReglas archivo bc = (Devuelve true, bc', cerr) →
  ∃ linea resto n rs,
    archivo = Some (linea :: resto)
    ∧ stoi (trim linea) = Valor n
    ∧ reglas bc' = reglas bc ++ rs
    ∧ length rs = Z.to_nat n
    ∧ (reglas bc = [] → (0 ≤ n)%Z → cerr = []).
Proof.
  unfold cargarReglas. destruct archivo as [archivo|]; [| done].
  destruct archivo as [|linea resto]; [done |]. simpl.
  destruct (stoi (trim linea)) as [n| |] eqn:Hn; [| done..].
  destruct (bucle_reglas (Z.to_nat n) resto bc)
    as [[resto'|r cerr'] bc1] eqn:E.
  - intros [= <- <-]. apply bucle_reglas_sigue in E as (rs & Hrs & Hlen).
    exists linea, resto, n, rs. do 4 (split; [done |]).
    intros Hbc Hpos. rewrite Hrs, Hbc. simpl. rewrite Hlen.
    apply stoi_rango in Hn. by rewrite size_distinto_cuenta by lia.
  - intros [= -> _ _]. by apply bucle_reglas_informe in E as [E _].
Qed.

Lemma cargarReglas_exito_witness :
  cargarReglas (Some [lit "2"; linea_R1; linea_R2; linea_R3])
    BaseConocimiento_defecto
  = (Devuelve true, {| reglas := [regla_R1; regla_R2] |}, [])
  ∧ ∃ linea resto n rs,
      Some [lit "2"; linea_R1; linea_R2; linea_R3] = Some (linea :: resto)
      ∧ stoi (trim linea) = Valor n
      ∧ reglas {| reglas := [regla_R1; regla_R2] |}
        = reglas BaseConocimiento_defecto ++ rs
      ∧ length rs = Z.to_nat n
      ∧ (reglas BaseConocimiento_defecto = [] → (0 ≤ n)%Z →
         ([] : list Diagnostico) = []).
Proof.
  split; [reflexivity |].
  exact (cargarReglas_exito (Some [lit "2"; linea_R1; linea_R2; linea_R3])
           BaseConocimiento_defecto {| reglas := [regla_R1; regla_R2] |} []
           eq_refl).
Defined.

(** X7. A [cargarHechos] that returns [true] has read a count from the
    first line and has added exactly that many facts (none for a negative
    count), each with a trimmed name, and it leaves a goal whose name is
    not empty. *)
Theorem cargarHechos_exito (archivo : option (list cadena))
    (bh bh' : BaseHechos) (cerr : list Diagnostico) :
  cargarHechos archivo bh = (Devuelve true, bh', cerr) →
  ∃ linea resto n hs,
    archivo = Some (linea :: resto)
    ∧ stoi (trim linea) = Valor n
    ∧ hechos_iniciales bh' = hechos_iniciales bh ++ hs
    ∧ length hs = Z.to_nat n
    ∧ Forall (λ h, trim (nombre h) = nombre h) hs
    ∧ nombre (objetivo bh') ≠ [].
Proof.
  unfold cargarHechos. destruct archivo as [archivo|]; [| done].
  destruct archivo as [|linea resto]; [done |]. simpl.
  destruct (stoi (trim linea)) as [n| |] eqn:Hn; [| done..].
  destruct (bucle_hechos (Z.to_nat n) resto bh)
    as [[resto'|r cerr'] bh1] eqn:E.
  - apply bucle_hechos_sigue in E as (hs & -> & Hlen & Hf).
    destruct (leer_objetivo resto' false _) as [[r bh2] cerr2] eqn:E2.
    intros [= -> <- _]. exists linea, resto, n, hs.
    do 2 (split; [done |]).
    pose proof (leer_objetivo_conserva _ _ _ _ _ _ E2) as [H1 _].
    rewrite H1, agregar_hechos_iniciales. do 3 (split; [done |]).
    clear H1 Hn. revert E2. generalize false.
    generalize (foldl (flip agregar_hecho) bh hs). clear.
    induction resto' as [|l ls IH]; intros b leido; simpl.
    + destruct leido; simpl; [| done].
      destruct (vacia (nombre (objetivo b))) eqn:V; [done |].
      intros [= <-]. by destruct (nombre (objetivo b)).
    + destruct (vacia (trim l)); [apply IH |].
      destruct leido; simpl.
      * destruct (vacia (trim (trim l))) eqn:V; [done |].
        intros [= <-]. simpl. by destruct (trim (trim l)).
      * case_bool_decide; [apply IH | done].
  - intros [= -> _ _]. by apply bucle_hechos_informe in E as [E _].
Qed.

Lemma cargarHechos_exito_witness :
  (cargarHechos (Some hechos_repetido) BaseHechos_defecto).1.1 = Devuelve true
  ∧ nombre (objetivo (cargarHechos (Some hechos_repetido)
                        BaseHechos_defecto).1.2) ≠ [].
Proof.
  split; [reflexivity |].
  destruct (cargarHechos_exito (Some hechos_repetido) BaseHechos_defecto
              (cargarHechos (Some hechos_repetido) BaseHechos_defecto).1.2
              [] eq_refl) as (l & resto & n & hs & _ & _ & _ & _ & _ & H).
  exact H.
Defined.

Lemma bucle_reglas_0 archivo bc :
  bucle_reglas 0 archivo bc = (Sigue archivo, bc).
Proof. by destruct archivo. Qed.

(** X8. With a count that is zero or negative, [cargarReglas] reads no
    further line: whatever follows the count line, it returns [true] and
    leaves the knowledge base as it was; into an empty knowledge base it
    writes the warning on the count exactly when the count is negative. *)
Theorem cargarReglas_cuenta_no_positiva (linea : cadena)
    (resto : list cadena) (n : Z) (bc : BaseConocimiento) :
  stoi (trim linea) = Valor n → (n ≤ 0)%Z →
  (cargarReglas (Some (linea :: resto)) bc).1 = (Devuelve true, bc)
  ∧ (reglas bc = [] →
     (cargarReglas (Some (linea :: resto)) bc).2
     = if (n <? 0)%Z then [CountMismatch] else []).
Proof.
  intros Hn Hle. unfold cargarReglas, getline. rewrite Hn.
  replace (Z.to_nat n) with 0 by lia. rewrite bucle_reglas_0.
  split; [done |]. cbn [fst snd reglas]. intros ->.
  apply stoi_rango in Hn. unfold size_distinto.
  destruct (Z.ltb_spec n 0) as [Hneg|Hpos].
  - assert (n mod 2 ^ 64 = n + 2 ^ 64)%Z as ->
      by (symmetry; apply Z.mod_unique with (-1)%Z; lia).
    rewrite (proj2 (Z.eqb_neq _ _)); [done |]. simpl length. lia.
  - by replace n with 0%Z by lia.
Qed.

Lemma cargarReglas_cuenta_no_positiva_witness :
  stoi (trim (lit "-1")) = Valor (-1)%Z ∧ (-1 ≤ 0)%Z
  ∧ cargarReglas (Some [lit "-1"; lit "esto no es una regla"])
      BaseConocimiento_defecto
    = (Devuelve true, BaseConocimiento_defecto, [CountMismatch]).
Proof.
  split; [reflexivity |]. split; [lia |].
  destruct (cargarReglas_cuenta_no_positiva (lit "-1")
              [lit "esto no es una regla"] (-1) BaseConocimiento_defecto
              eq_refl ltac:(lia)) as [H1 H2].
  specialize (H2 eq_refl).
  destruct (cargarReglas _ _) as [[r b] c]. simpl in *.
  by rewrite H2; injection H1 as -> ->.
Defined.

(** ** The rules a load adds *)

Lemma Seleccion_literales alfaStr op ls :
  Seleccion alfaStr (op, ls) →
  Forall (λ l, trim l = l) ls ∧ operador_acorde op (length ls).
Proof.
  inversion 1 as [i ps Hp _ HP|j ps Hp _ HP|]; subst; simpl.
  - split; [apply Forall_fmap, Forall_true; intros; apply trim_idemp |].
    rewrite length_fmap. by eapply Partes_primera_length.
  - split; [apply Forall_fmap, Forall_true; intros; apply trim_idemp |].
    rewrite length_fmap. by eapply Partes_primera_length.
  - split; [| done]. repeat constructor. apply trim_idemp.
Qed.

Lemma regla_de_linea_bien_formada l r :
  regla_de_linea l = Sigue r → regla_bien_formada r.
Proof.
  unfold regla_de_linea, regla_desde_marcador, regla_de_clausula.
  destruct (find l _ 0); [| done].
  destruct (rfind _ fcMarkerLower); [| done].
  destruct (rfind_char _ _ _); [| done].
  destruct (stod _); [| done..].
  destruct (find _ siMarker 0) as [[|?]|]; [| done..].
  destruct (find _ entoncesMarker _); [| done].
  destruct (vacia (trim (substr _ _ _))); [done |].
  destruct (vacia (trim (substr_from _ _))) eqn:V; [done |].
  destruct (parsearAntecedente _ _) as [[ok ant] cerr] eqn:E.
  destruct ok; [| done]. intros [= <-].
  apply parsearAntecedente_exito in E as (HS & Hc & Hf & _).
  apply Seleccion_literales in HS as [Ht Hop].
  unfold regla_bien_formada, hecho_nombrado. simpl.
  rewrite !trim_idemp, Hc. simpl. rewrite length_fmap.
  split; [done |]. split.
  { split; [| done]. by destruct (trim (substr_from _ _)). }
  split; [| done]. apply Forall_fmap.
  rewrite Forall_forall in Hf, Ht. apply Forall_forall. intros x Hx.
  simpl. auto.
Qed.

Lemma bucle_reglas_bien_formadas n archivo bc p bc' :
  bucle_reglas n archivo bc = (p, bc') →
  ∃ rs, reglas bc' = reglas bc ++ rs ∧ Forall regla_bien_formada rs.
Proof.
  revert n bc. induction archivo as [|l ls IH]; intros n bc.
  - destruct n; simpl; intros [= _ <-]; exists []; by rewrite app_nil_r.
  - destruct n as [|n]; simpl;
      [intros [= _ <-]; exists []; by rewrite app_nil_r |].
    destruct (vacia (trim l)); [apply IH |].
    destruct (regla_de_linea (trim l)) as [r|] eqn:E.
    + intros (rs & -> & Hf)%IH. exists (r :: rs). simpl.
      rewrite <- app_assoc. split; [done |]. constructor; [| done].
      by eapply regla_de_linea_bien_formada.
    + intros [= _ <-]. exists []. by rewrite app_nil_r.
Qed.

(** X9. However [cargarReglas] ends, it has only added rules after those
    the knowledge base held, and each rule it added is well formed: its
    identifier is trimmed; the names of its consequent and of its
    conditions are trimmed and not empty, with the certainty of a fact
    just constructed; and it has one condition when its operator is
    NINGUNO and two or more when it is Y or O. *)
Theorem cargarReglas_bien_formadas (archivo : option (list cadena))
    (bc : BaseConocimiento) :
  ∃ rs, reglas (cargarReglas archivo bc).1.2 = reglas bc ++ rs
        ∧ Forall regla_bien_formada rs.
Proof.
  assert (∃ rs, reglas bc = reglas bc ++ rs ∧ Forall regla_bien_formada rs)
    as Hnada by (exists []; by rewrite app_nil_r).
  unfold cargarReglas. destruct archivo as [archivo|]; [| done].
  destruct (getline archivo) as [[linea resto]|]; [| done].
  destruct (stoi (trim linea)) as [n| |]; [| done..].
  destruct (bucle_reglas (Z.to_nat n) resto bc) as [p bc1] eqn:E.
  apply bucle_reglas_bien_formadas in E. by destruct p.
Qed.

(** ** Blank lines and white space around a line *)

Lemma limpiar_blanca l ls : trim l = [] → limpiar (l :: ls) = limpiar ls.
Proof. intros H. unfold limpiar. by rewrite filter_cons_False by auto. Qed.

Lemma limpiar_no_blanca l ls :
  trim l ≠ [] → limpiar (l :: ls) = trim l :: limpiar ls.
Proof. intros H. unfold limpiar. by rewrite filter_cons_True. Qed.

Lemma vacia_trim l : vacia (trim l) = bool_decide (trim l = []).
Proof. by destruct (trim l). Qed.

Lemma bucle_reglas_limpiar n archivo bc :
  bucle_reglas n (limpiar archivo) bc
  = match bucle_reglas n archivo bc with
    | (Sigue resto, bc') => (Sigue (limpiar resto), bc')
    | sale => sale
    end.
Proof.
  revert n bc. induction archivo as [|l ls IH]; intros n bc.
  - by destruct n.
  - destruct n as [|n].
    { rewrite !bucle_reglas_0. done. }
    destruct (decide (trim l = [])) as [Hl|Hl].
    + rewrite limpiar_blanca by done. simpl. rewrite Hl. simpl. apply IH.
    + rewrite limpiar_no_blanca by done. simpl. rewrite trim_idemp.
      rewrite (vacia_false _ Hl).
      destruct (regla_de_linea (trim l)); [apply IH | done].
Qed.

Lemma bucle_hechos_0 archivo bh :
  bucle_hechos 0 archivo bh = (Sigue archivo, bh).
Proof. by destruct archivo. Qed.

Lemma bucle_hechos_limpiar n archivo bh :
  bucle_hechos n (limpiar archivo) bh
  = match bucle_hechos n archivo bh with
    | (Sigue resto, bh') => (Sigue (limpiar resto), bh')
    | sale => sale
    end.
Proof.
  revert n bh. induction archivo as [|l ls IH]; intros n bh.
  - by destruct n.
  - destruct n as [|n].
    { rewrite !bucle_hechos_0. done. }
    destruct (decide (trim l = [])) as [Hl|Hl].
    + rewrite limpiar_blanca by done. simpl. rewrite Hl. simpl. apply IH.
    + rewrite limpiar_no_blanca by done. simpl. rewrite trim_idemp.
      rewrite (vacia_false _ Hl).
      destruct (hecho_de_linea (trim l)); [apply IH | done].
Qed.

Lemma leer_objetivo_limpiar archivo leido bh :
  leer_objetivo (limpiar archivo) leido bh = leer_objetivo archivo leido bh.
Proof.
  revert leido. induction archivo as [|l ls IH]; intros leido; [done |].
  destruct (decide (trim l = [])) as [Hl|Hl].
  - rewrite limpiar_blanca by done. simpl. rewrite Hl. simpl. apply IH.
  - rewrite limpiar_no_blanca by done. simpl. rewrite !trim_idemp.
    rewrite (vacia_false _ Hl). destruct leido; simpl; [done |].
    case_bool_decide; [apply IH | done].
Qed.

(** X10. After the count line, blank lines and white space at the ends of
    a line change nothing: each loader returns the same value, leaves the
    same container and writes the same messages when the lines after the
    first are replaced by those that are not blank, trimmed. *)
Theorem cargar_limpiar (linea : cadena) (resto : list cadena)
    (bc : BaseConocimiento) (bh : BaseHechos) :
  cargarReglas (Some (linea :: limpiar resto)) bc
  = cargarReglas (Some (linea :: resto)) bc
  ∧ cargarHechos (Some (linea :: limpiar resto)) bh
    = cargarHechos (Some (linea :: resto)) bh.
Proof.
  unfold cargarReglas, cargarHechos, getline.
  destruct (stoi (trim linea)) as [n| |]; [| done..].
  rewrite bucle_reglas_limpiar, bucle_hechos_limpiar. split.
  - by destruct (bucle_reglas (Z.to_nat n) resto bc) as [[resto'|r cerr] bc1].
  - destruct (bucle_hechos (Z.to_nat n) resto bh) as [[resto'|r cerr] bh1];
      [| done].
    by rewrite leer_objetivo_limpiar.
Qed.

(** ** Reading back the conditions that are printed *)

Lemma ocurre_lookup pat t j k c :
  ocurre pat t j → pat !! k = Some c → t !! (j + k) = Some c.
Proof.
  intros [_ Hp] Hk. rewrite <- lookup_drop. by eapply prefix_lookup_Some.
Qed.

Lemma ocurre_app_length pat x y : ocurre pat (x ++ pat ++ y) (length x).
Proof.
  split; [rewrite length_app; lia |].
  rewrite drop_app_length. by apply prefix_app_r.
Qed.

Lemma ocurre_app_r pat x y j :
  ocurre pat (x ++ y) (length x + j) ↔ ocurre pat y j.
Proof.
  rewrite <- (ocurre_drop pat (x ++ y) (length x) j)
    by (rewrite length_app; lia).
  by rewrite drop_app_length.
Qed.

Lemma tolower_no_blanco c : ¬ blanco c → ¬ blanco (tolower c).
Proof.
  unfold blanco. intros H H'. apply H.
  apply (bool_decide_eq_true (c ∈ whitespace)). rewrite <- tolower_blanco.
  by apply bool_decide_eq_true.
Qed.

Lemma toLower_sin_blancos w :
  Forall (λ c, ¬ blanco c) w → Forall (λ c, ¬ blanco c) (toLower w).
Proof.
  intros H. apply Forall_fmap. eapply Forall_impl; [exact H |].
  intros c. apply tolower_no_blanco.
Qed.

Lemma blanco_espacio : blanco " "%char.
Proof. apply list_elem_of_here. Qed.

(** A pattern that begins with a space does not occur where the text has
    no white space. *)
Lemma ocurre_sin_blancos pat w X j :
  Forall (λ c, ¬ blanco c) w → j < length w →
  ¬ ocurre (" "%char :: pat) (w ++ X) j.
Proof.
  intros Hw Hj Hoc.
  pose proof (ocurre_lookup _ _ _ 0 " "%char Hoc eq_refl) as Hl.
  rewrite Nat.add_0_r, lookup_app_l in Hl by done.
  rewrite Forall_lookup in Hw. apply (Hw _ _ Hl), blanco_espacio.
Qed.

Lemma ausente_sin_blancos pat w :
  Forall (λ c, ¬ blanco c) w → ausente (" "%char :: pat) w.
Proof.
  intros Hw j Hoc.
  pose proof (ocurre_lookup _ _ _ 0 " "%char Hoc eq_refl) as Hl.
  rewrite Nat.add_0_r in Hl.
  rewrite Forall_lookup in Hw. apply (Hw _ _ Hl), blanco_espacio.
Qed.

Lemma palabra_recortada w : Forall (λ c, ¬ blanco c) w → recortada w.
Proof.
  intros Hw. rewrite Forall_lookup in Hw. split; intros c Hc.
  - rewrite head_lookup in Hc. by eapply Hw.
  - rewrite last_lookup in Hc. by eapply Hw.
Qed.

Lemma texto_condiciones_cons op h h2 resto :
  texto_condiciones op (h :: h2 :: resto)
  = nombre h ++ separador op ++ texto_condiciones op (h2 :: resto).
Proof. done. Qed.

Lemma texto_condiciones_uno op h : texto_condiciones op [h] = nombre h.
Proof. simpl. apply app_nil_r. Qed.

(** The delimiters, as a space, a letter and a space. *)
Lemma Partes_texto_condiciones op x conds :
  separador op = [" "%char; x; " "%char] → tolower x = x →
  conds ≠ [] → Forall (λ h, palabra (nombre h)) conds →
  Partes (separador op) (texto_condiciones op conds) (nombre <$> conds).
Proof.
  intros Hsep Hx Hne Hw. induction conds as [|h [|h2 resto] IH]; [done | |].
  - rewrite texto_condiciones_uno. apply Partes_fin. rewrite Hsep.
    apply ausente_sin_blancos, toLower_sin_blancos.
    by apply Forall_cons in Hw as [[_ Hw] _].
  - apply Forall_cons in Hw as [[Hh Hw1] Hw].
    rewrite texto_condiciones_cons.
    replace (nombre <$> h :: h2 :: resto)
      with (take (length (nombre h))
              (nombre h ++ separador op ++ texto_condiciones op (h2 :: resto))
            :: (nombre <$> h2 :: resto))
      by (by rewrite take_app_length).
    apply Partes_corte.
    + unfold toLower. rewrite !fmap_app. fold (toLower (nombre h)).
      replace (tolower <$> separador op) with (separador op)
        by (rewrite Hsep; simpl; by rewrite Hx).
      split; [lia |]. split.
      * rewrite <- (length_toLower (nombre h)). apply ocurre_app_length.
      * intros j _ Hj. rewrite Hsep. apply ocurre_sin_blancos.
        -- by apply toLower_sin_blancos.
        -- by rewrite length_toLower.
    + rewrite app_assoc, <- length_app, drop_app_length. by apply IH.
Qed.

(** In a text that begins with a word and a delimiter, the other delimiter
    occurs only after the first one. *)
Lemma otro_separador_despues x x' n R j :
  x ≠ x' → Forall (λ c, ¬ blanco c) n →
  ocurre [" "%char; x'; " "%char] (n ++ [" "%char; x; " "%char] ++ R) j →
  length n < j.
Proof.
  intros Hx Hn Hoc.
  destruct (Nat.lt_trichotomy j (length n)) as [Hlt|[->|Hgt]]; [| | done].
  - by apply ocurre_sin_blancos in Hoc.
  - pose proof (ocurre_lookup _ _ _ 1 x' Hoc eq_refl) as Hl.
    rewrite lookup_app_r in Hl by lia.
    replace (length n + 1 - length n) with 1 in Hl by lia.
    simpl in Hl. congruence.
Qed.

Lemma agregar_no_vacias ls conds :
  Forall (λ l, l ≠ []) ls →
  agregar ls conds = (true, conds ++ (Hecho_con_nombre <$> ls), []).
Proof.
  intros H. revert conds. induction H as [|l ls Hl _ IH]; intros conds.
  - simpl. by rewrite app_nil_r.
  - rewrite agregar_cons, (vacia_false _ Hl). simpl.
    by rewrite IH, <- app_assoc.
Qed.

Lemma trim_palabras conds :
  Forall (λ h, palabra (nombre h)) conds →
  trim <$> (nombre <$> conds) = nombre <$> conds.
Proof.
  intros H. rewrite <- list_fmap_compose. apply list_fmap_ext.
  intros i h Hi. simpl. apply trim_recortada, palabra_recortada.
  rewrite Forall_lookup in H. by apply (H _ _ Hi).
Qed.

Lemma literales_texto_condiciones op conds :
  Forall (λ h, palabra (nombre h)) conds →
  operador_acorde op (length conds) →
  literales (texto_condiciones op conds) = (op, nombre <$> conds).
Proof.
  intros Hw Hop.
  apply (Seleccion_funcional (texto_condiciones op conds));
    [apply literales_Seleccion |].
  rewrite <- (trim_palabras conds Hw).
  assert (∀ x x' : ascii,
            x ≠ x' → tolower x = x → 2 ≤ length conds →
            separador op = [" "%char; x; " "%char] →
            primera [" "%char; x; " "%char]
              (toLower (texto_condiciones op conds))
              (length (default [] (nombre <$> head conds)))
            ∧ ∀ j, ocurre [" "%char; x'; " "%char]
                     (toLower (texto_condiciones op conds)) j →
                   length (default [] (nombre <$> head conds)) < j) as Hdos.
  { intros x x' Hx Hlow Hlen Hsep.
    destruct conds as [|h [|h2 resto]]; simpl in Hlen; [lia.. |].
    apply Forall_cons in Hw as [[_ Hh] _].
    rewrite texto_condiciones_cons, Hsep. simpl head. simpl default.
    unfold toLower. rewrite !fmap_app. fold (toLower (nombre h)).
    change (tolower <$> [" "%char; x; " "%char])
      with [" "%char; tolower x; " "%char]. rewrite Hlow.
    rewrite <- (length_toLower (nombre h)).
    apply toLower_sin_blancos in Hh. split.
    - split; [lia |]. split; [apply ocurre_app_length |].
      intros j _ Hj. by apply ocurre_sin_blancos.
    - intros j. by apply otro_separador_despues. }
  destruct op; simpl in Hop.
  - destruct conds as [|h [|? ?]]; simpl in Hop; try lia.
    apply Forall_cons in Hw as [[_ Hh] _].
    rewrite texto_condiciones_uno. apply toLower_sin_blancos in Hh.
    apply Seleccion_NINGUNO; by apply ausente_sin_blancos.
  - destruct (Hdos "y"%char "o"%char) as [H1 H2]; [done.. |].
    eapply Seleccion_Y; [exact H1 | |].
    + destruct (find (toLower (texto_condiciones OperadorLogico.Y conds))
                  opO 0) as [j|] eqn:F.
      * right. exists j. apply find_primera in F. split; [done |].
        apply H2. by destruct F as (_ & F & _).
      * left. by apply find_ausente.
    + apply (Partes_texto_condiciones OperadorLogico.Y "y"%char);
        [done | done | intros ->; simpl in Hop; lia | done].
  - destruct (Hdos "o"%char "y"%char) as [H1 H2]; [done.. |].
    eapply Seleccion_O; [exact H1 | |].
    + destruct (find (toLower (texto_condiciones OperadorLogico.O conds))
                  opY 0) as [j|] eqn:F.
      * right. exists j. apply find_primera in F. split; [done |].
        apply Nat.lt_le_incl, H2. by destruct F as (_ & F & _).
      * left. by apply find_ausente.
    + apply (Partes_texto_condiciones OperadorLogico.O "o"%char);
        [done | done | intros ->; simpl in Hop; lia | done].
Qed.

Lemma parsearAntecedente_texto_condiciones op conds a0 :
  Forall (λ h, palabra (nombre h)) conds →
  operador_acorde op (length conds) →
  parsearAntecedente (texto_condiciones op conds) a0
  = (true,
     {| condiciones :=
          condiciones a0 ++ (Hecho_con_nombre <$> (nombre <$> conds));
        operador := op |}, []).
Proof.
  intros Hw Hop. unfold parsearAntecedente.
  rewrite (literales_texto_condiciones _ _ Hw Hop).
  rewrite agregar_no_vacias.
  - replace (vacia (condiciones a0 ++ (Hecho_con_nombre <$> (nombre <$> conds))))
      with false; [done |].
    destruct conds; [by destruct op; simpl in Hop; lia |].
    by destruct (condiciones a0).
  - apply Forall_fmap. eapply Forall_impl; [exact Hw |]. by intros h [? _].
Qed.

(** X11. The conditions that [imprimirBaseConocimiento] prints are read
    back by [parsearAntecedente]. For an antecedent whose operator fits
    the number of its conditions (NINGUNO with one, Y or O with two or
    more) and whose conditions are named by words (not empty, no white
    space) and have the certainty of a fact just constructed, parsing the
    printed conditions into a new antecedent succeeds, writes nothing,
    and gives the antecedent back. *)
Theorem texto_condiciones_se_lee (a : Antecedente) :
  Forall hecho_palabra (condiciones a) →
  operador_acorde (operador a) (length (condiciones a)) →
  parsearAntecedente (texto_condiciones (operador a) (condiciones a))
    Antecedente_defecto
  = (true, a, []).
Proof.
  intros Hw Hop.
  rewrite parsearAntecedente_texto_condiciones; [| | done].
  - destruct a as [conds op]. simpl in *. do 2 f_equal. f_equal.
    rewrite <- list_fmap_compose. rewrite <- (list_fmap_id conds) at 2.
    apply list_fmap_ext. intros i [n fc] Hi. rewrite Forall_lookup in Hw.
    destruct (Hw _ _ Hi) as [_ Hfc]. simpl in *. unfold Hecho_con_nombre.
    by rewrite Hfc.
  - eapply Forall_impl; [exact Hw |]. by intros h [? _].
Qed.

Lemma texto_condiciones_se_lee_witness :
  parsearAntecedente (lit "h2 o h3") Antecedente_defecto
  = (true,
     {| condiciones := [Hecho_con_nombre (lit "h2");
                        Hecho_con_nombre (lit "h3")];
        operador := OperadorLogico.O |}, []).
Proof.
  apply (texto_condiciones_se_lee
           {| condiciones := [Hecho_con_nombre (lit "h2");
                              Hecho_con_nombre (lit "h3")];
              operador := OperadorLogico.O |}).
  - assert (∀ c : ascii, bool_decide (c ∉ whitespace) = true → ¬ blanco c)
      as Hc by (intros c; apply bool_decide_eq_true).
    assert (∀ w, w ≠ [] → Forall (λ c, bool_decide (c ∉ whitespace) = true) w
                 → hecho_palabra (Hecho_con_nombre w)) as Hw.
    { intros w ? Hw. split; [split; [done |] | done].
      eapply Forall_impl; [exact Hw | exact Hc]. }
    repeat apply Forall_cons_2; [| | apply Forall_nil_2];
      (apply Hw; [done | by repeat constructor]).
  - simpl. lia.
Defined.

(** ** The shape of a fact line *)

Lemma recorte_izquierdo s :
  ∃ a s1, s = a ++ s1 ∧ Forall blanco a ∧ ∀ c, head s1 = Some c → ¬ blanco c.
Proof.
  induction s as [|c s (a & s1 & -> & Ha & Hs)].
  - exists [], []. by repeat split.
  - destruct (decide (blanco c)) as [Hc|Hc].
    + exists (c :: a), s1. repeat split; [by constructor | done].
    + exists [], (c :: a ++ s1). repeat split; [done |].
      by intros ? [= <-].
Qed.

Lemma recorte_derecho s :
  ∃ s1 b, s = s1 ++ b ∧ Forall blanco b ∧ ∀ c, last s1 = Some c → ¬ blanco c.
Proof.
  induction s as [|c s (s1 & b & -> & Hb & Hs)] using rev_ind.
  - exists [], []. by repeat split.
  - destruct (decide (blanco c)) as [Hc|Hc].
    + exists s1, (b ++ [c]). split; [by rewrite app_assoc |].
      split; [| done]. apply Forall_app. split; [done |].
      by apply Forall_singleton.
    + exists ((s1 ++ b) ++ [c]), []. split; [by rewrite app_nil_r |].
      split; [done |]. intros ?. rewrite last_snoc. by intros [= <-].
Qed.

Lemma rfind_ultima_coma n R :
  ","%char ∉ R → rfind (n ++ ","%char :: R) [","%char] = Some (length n).
Proof.
  intros HR. apply rfind_Some. split.
  - apply ocurre_char. by apply list_lookup_middle.
  - intros j Hj Hoc%ocurre_char. rewrite lookup_app_r in Hoc by lia.
    destruct (j - length n) as [|k] eqn:E; [lia |]. simpl in Hoc.
    apply HR. by eapply list_elem_of_lookup_2.
Qed.

Lemma hecho_de_linea_coma n R :
  ","%char ∉ R →
  hecho_de_linea (n ++ ","%char :: R)
  = if empieza fcMarkerLower (toLower (trim R)) then
      match stod (trim (drop 3 (trim R))) with
      | Valor fc => Sigue {| nombre := trim n; factorCerteza := fc |}
      | invalid_argument => Sale (Devuelve false) [InvalidNumber]
      | out_of_range => Sale Lanza_out_of_range []
      end
    else Sale (Devuelve false) [MissingKeyword].
Proof.
  intros HR. unfold hecho_de_linea. rewrite (rfind_ultima_coma _ _ HR).
  unfold substr, substr_from. rewrite drop_0, take_app_length.
  replace (drop (length n + 1) (n ++ ","%char :: R)) with R
    by (rewrite (cons_middle _ n R), app_assoc, drop_app_length';
        [done | rewrite length_app; simpl; lia]).
  destruct (empieza fcMarkerLower (toLower (trim R))) eqn:E.
  - apply empieza_prefix, find_0_prefix in E. by rewrite E.
  - destruct (find (toLower (trim R)) fcMarkerLower 0) as [[|k]|] eqn:F;
      [| done..].
    apply find_0_prefix, empieza_prefix in F. congruence.
Qed.

Lemma no_blanco_coma : ¬ blanco ","%char.
Proof. by apply (bool_decide_eq_false (blanco ","%char)). Qed.

(** Trimming a line with a last comma keeps the comma, the trimmed name
    and the trimmed text after the comma. *)
Lemma trim_linea_coma n R :
  ","%char ∉ R →
  ∃ n1 R1, trim (n ++ ","%char :: R) = n1 ++ ","%char :: R1
           ∧ trim n1 = trim n ∧ trim R1 = trim R ∧ ","%char ∉ R1.
Proof.
  intros HR.
  destruct (recorte_izquierdo n) as (a & n1 & -> & Ha & Hn1).
  destruct (recorte_derecho R) as (R1 & b & -> & Hb & HR1).
  exists n1, R1. repeat split.
  - replace ((a ++ n1) ++ ","%char :: R1 ++ b)
      with (a ++ (n1 ++ ","%char :: R1) ++ b)
      by (by rewrite <- !app_assoc).
    apply trim_app_recortada; [done.. |]. split; intros c.
    + rewrite head_app. destruct (head n1) eqn:E.
      * intros [= <-]. by apply Hn1.
      * intros [= <-]. apply no_blanco_coma.
    + rewrite last_app, last_cons. destruct (last R1) eqn:E.
      * intros [= <-]. by apply HR1.
      * intros [= <-]. apply no_blanco_coma.
  - symmetry. rewrite <- (app_nil_r n1) at 1. by apply trim_app_blancos.
  - symmetry. by apply (trim_app_blancos []).
  - intros H. apply HR, elem_of_app. by left.
Qed.

Lemma blanco_tolower c : blanco (tolower c) ↔ blanco c.
Proof.
  unfold blanco.
  rewrite <- (bool_decide_eq_true (tolower c ∈ whitespace)), tolower_blanco.
  apply bool_decide_eq_true.
Qed.

Lemma sin_blancos_toLower w :
  Forall (λ c, ¬ blanco c) (toLower w) → Forall (λ c, ¬ blanco c) w.
Proof.
  induction w as [|c w IH]; intros H; [done |].
  change (toLower (c :: w)) with (tolower c :: toLower w) in H.
  apply Forall_cons in H as [Hc H]. apply Forall_cons_2; [| by apply IH].
  by rewrite <- blanco_tolower.
Qed.

(** After a word, trimming removes only white space at the end. *)
Lemma trim_tras_palabra x V :
  palabra x →
  ∃ V1 b, V = V1 ++ b ∧ Forall blanco b ∧ trim (x ++ V) = x ++ V1
          ∧ trim V1 = trim V.
Proof.
  intros [Hne Hx].
  destruct (recorte_derecho V) as (V1 & b & -> & Hb & HV1).
  exists V1, b. repeat split; [done | |].
  - replace (x ++ V1 ++ b) with ([] ++ (x ++ V1) ++ b)
      by (by rewrite <- app_assoc).
    apply trim_app_recortada; [done.. |].
    apply palabra_recortada in Hx as [Hh Hl]. split; intros c.
    + rewrite head_app. destruct x; [done |]. apply Hh.
    + rewrite last_app. destruct (last V1) eqn:E.
      * intros [= <-]. by apply HV1.
      * apply Hl.
  - symmetry. by apply (trim_app_blancos []).
Qed.

(** A spelling of the marker, in any case. *)
Lemma marcador_palabra m :
  toLower m = fcMarkerLower →
  palabra m ∧ length m = 3 ∧ ","%char ∉ m.
Proof.
  intros Hm. split; [split |]; [| | split].
  - intros ->. discriminate.
  - apply sin_blancos_toLower. rewrite Hm.
    repeat apply Forall_cons_2; [| | | apply Forall_nil_2];
      by apply (bool_decide_eq_false (blanco _)).
  - by rewrite <- (length_toLower m), Hm.
  - intros H. apply (list_elem_of_fmap_2 tolower) in H.
    fold (toLower m) in H. rewrite Hm in H. simpl in H.
    repeat (apply elem_of_cons in H as [H|H]; [discriminate |]).
    by apply elem_of_nil in H.
Qed.

(** X12. A fact line is accepted whatever the white space around its
    parts and the case of its marker. For a line made of a name, a comma,
    white space, the marker [FC=] in any case and a text without comma,
    [cargarHechos] (which trims the line) reads the fact with the trimmed
    name and the number that [stod] reads in the trimmed text; it fails
    with InvalidNumber, or lets the exception escape, exactly as [stod]
    does on that text. *)
Theorem hecho_de_linea_aceptada (n esp m V : cadena) :
  Forall blanco esp → toLower m = fcMarkerLower → ","%char ∉ V →
  hecho_de_linea (trim (n ++ ","%char :: esp ++ m ++ V))
  = match stod (trim V) with
    | Valor fc => Sigue {| nombre := trim n; factorCerteza := fc |}
    | invalid_argument => Sale (Devuelve false) [InvalidNumber]
    | out_of_range => Sale Lanza_out_of_range []
    end.
Proof.
  intros Hesp Hm HV. destruct (marcador_palabra m Hm) as (Hw & Hlen & Hcoma).
  assert (","%char ∉ esp ++ m ++ V) as HR.
  { rewrite !elem_of_app. intros [H|[H|H]]; [| done..].
    rewrite Forall_forall in Hesp. by apply no_blanco_coma, Hesp. }
  destruct (trim_linea_coma n _ HR) as (n1 & R1 & -> & Hn1 & HR1 & HR1').
  rewrite (hecho_de_linea_coma _ _ HR1'), Hn1, HR1.
  replace (esp ++ m ++ V) with (esp ++ (m ++ V) ++ []) by (by rewrite !app_nil_r).
  rewrite (trim_app_blancos esp (m ++ V) []) by done.
  destruct (trim_tras_palabra m V Hw) as (V1 & b & -> & Hb & -> & HV1).
  replace (empieza fcMarkerLower (toLower (m ++ V1))) with true.
  - rewrite drop_app_length' by done.
    by rewrite HV1.
  - symmetry. apply empieza_prefix. unfold toLower. rewrite fmap_app.
    fold (toLower m). rewrite Hm. by apply prefix_app_r.
Qed.

Lemma hecho_de_linea_aceptada_witness :
  hecho_de_linea (trim (lit "  h2 , Fc= 0.5 "))
  = Sigue {| nombre := lit "h2"; factorCerteza := Finito (1 # 2) |}.
Proof.
  assert (Forall blanco (lit " ")) as H1
    by apply Forall_singleton, blanco_espacio.
  assert (toLower (lit "Fc=") = fcMarkerLower) as H2 by reflexivity.
  assert (","%char ∉ lit " 0.5 ") as H3 by no_esta.
  exact (hecho_de_linea_aceptada (lit "  h2 ") (lit " ") (lit "Fc=")
           (lit " 0.5 ") H1 H2 H3).
Defined.

(** ** The facts that are printed *)

(** X13. A fact line as [imprimirBaseHechos] prints it, with [, FC = ]
    between the name and the number, is refused by [cargarHechos]: when
    the printed number holds no comma, the line read back fails with the
    message on the missing marker, because the marker searched is [fc=]
    with no space before the sign. *)
Theorem linea_hecho_rechazada (mostrar_double : double → cadena)
    (hecho : Hecho) :
  ","%char ∉ mostrar_double (factorCerteza hecho) →
  hecho_de_linea (trim (linea_hecho mostrar_double hecho))
  = Sale (Devuelve false) [MissingKeyword].
Proof.
  intros HM. unfold linea_hecho.
  set (M := mostrar_double (factorCerteza hecho)) in *.
  change (lit ", FC = " ++ M)
    with (","%char :: [" "%char] ++ lit "FC" ++ lit " = " ++ M).
  assert (","%char ∉ [" "%char] ++ lit "FC" ++ lit " = " ++ M) as HR.
  { rewrite !elem_of_app. intros [H|[H|[H|H]]]; [| | | done];
      revert H; no_esta. }
  destruct (trim_linea_coma (nombre hecho) _ HR) as (n1 & R1 & -> & _ & HR1 & HR1').
  rewrite (hecho_de_linea_coma _ _ HR1'), HR1.
  rewrite <- (app_nil_r M), !app_assoc, <- !(app_assoc [" "%char]).
  rewrite (trim_app_blancos [" "%char] _ [])
    by (done || apply Forall_singleton, blanco_espacio).
  rewrite <- !app_assoc.
  destruct (trim_tras_palabra (lit "FC") (lit " = " ++ M))
    as (V1 & b & HV & _ & -> & _).
  { split; [done |].
    repeat apply Forall_cons_2; [| | apply Forall_nil_2];
      by apply (bool_decide_eq_false (blanco _)). }
  by destruct V1 as [|c V1]; [| injection HV as <- _].
Qed.

Lemma linea_hecho_rechazada_witness :
  hecho_de_linea (trim (lit "h2, FC = 0.3"))
  = Sale (Devuelve false) [MissingKeyword].
Proof.
  apply (linea_hecho_rechazada (λ _, lit "0.3")
           {| nombre := lit "h2"; factorCerteza := Finito (3 # 10) |}).
  no_esta.
Defined.

(** ** The shape of a rule line *)

Lemma tolower_igual c : tolower c = "="%char → c = "="%char.
Proof.
  destruct c as [[] [] [] [] [] [] [] []]; vm_compute; intros H;
    (reflexivity || discriminate H).
Qed.

Lemma find_primer_caracter n c R :
  c ∉ n → find (n ++ c :: R) [c] 0 = Some (length n).
Proof.
  intros Hn. apply find_Some. split; [lia |]. split.
  - apply ocurre_char. by apply list_lookup_middle.
  - intros j _ Hj Hoc%ocurre_char. rewrite lookup_app_l in Hoc by done.
    apply Hn. by eapply list_elem_of_lookup_2.
Qed.

Lemma trim_linea_caracter ch n R :
  ¬ blanco ch →
  ∃ a n1 R1 b, n = a ++ n1 ∧ R = R1 ++ b ∧ Forall blanco a ∧ Forall blanco b
               ∧ trim (n ++ ch :: R) = n1 ++ ch :: R1.
Proof.
  intros Hch.
  destruct (recorte_izquierdo n) as (a & n1 & -> & Ha & Hn1).
  destruct (recorte_derecho R) as (R1 & b & -> & Hb & HR1).
  exists a, n1, R1, b. do 4 (split; [done |]).
  replace ((a ++ n1) ++ ch :: R1 ++ b) with (a ++ (n1 ++ ch :: R1) ++ b)
    by (by rewrite <- !app_assoc).
  apply trim_app_recortada; [done.. |]. split; intros c.
  - rewrite head_app. destruct (head n1) eqn:E.
    + intros [= <-]. by apply Hn1.
    + by intros [= <-].
  - rewrite last_app, last_cons. destruct (last R1) eqn:E.
    + intros [= <-]. by apply HR1.
    + by intros [= <-].
Qed.

Lemma cabeza_toLower x :
  (∀ c, head (toLower x) = Some c → ¬ blanco c) →
  ∀ c, head x = Some c → ¬ blanco c.
Proof.
  destruct x as [|c0 x]; [done |]. intros H c [= <-] Hb.
  apply (H (tolower c0) eq_refl). by apply blanco_tolower.
Qed.

(** After a text that begins and ends without white space, trimming
    removes only white space at the end. *)
Lemma trim_tras_recortada x V :
  x ≠ [] → recortada x →
  ∃ V1 b, V = V1 ++ b ∧ Forall blanco b ∧ trim (x ++ V) = x ++ V1
          ∧ trim V1 = trim V.
Proof.
  intros Hne [Hh Hl].
  destruct (recorte_derecho V) as (V1 & b & -> & Hb & HV1).
  exists V1, b. repeat split; [done | |].
  - replace (x ++ V1 ++ b) with ([] ++ (x ++ V1) ++ b)
      by (by rewrite <- app_assoc).
    apply trim_app_recortada; [done.. |]. split; intros c.
    + rewrite head_app. destruct x; [done |]. apply Hh.
    + rewrite last_app. destruct (last V1) eqn:E.
      * intros [= <-]. by apply HV1.
      * apply Hl.
  - symmetry. by apply (trim_app_blancos []).
Qed.

(** After a text that begins without white space, trimming a text that is
    not blank removes only white space at the end. *)
Lemma trim_tras_cabeza x s :
  x ≠ [] → (∀ c, head x = Some c → ¬ blanco c) → trim s ≠ [] →
  ∃ s1 b, s = s1 ++ b ∧ Forall blanco b ∧ trim (x ++ s) = x ++ s1
          ∧ trim s1 = trim s.
Proof.
  intros Hne Hh Hs.
  destruct (recorte_derecho s) as (s1 & b & -> & Hb & Hs1).
  assert (trim s1 = trim (s1 ++ b)) as Ht
    by (symmetry; by apply (trim_app_blancos [])).
  exists s1, b. repeat split; [done | | done].
  replace (x ++ s1 ++ b) with ([] ++ (x ++ s1) ++ b)
    by (by rewrite <- app_assoc).
  apply trim_app_recortada; [done.. |]. split; intros c.
  - rewrite head_app. destruct x; [done |]. apply Hh.
  - rewrite last_app. destruct (last s1) eqn:E.
    + intros [= <-]. by apply Hs1.
    + apply last_None in E as ->. by rewrite <- Ht in Hs.
Qed.

Lemma marcador_ultimo y m V1 :
  toLower m = fcMarkerLower → "="%char ∉ V1 →
  rfind (toLower (y ++ m ++ V1)) fcMarkerLower = Some (length y).
Proof.
  intros Hm HV. apply rfind_Some. unfold toLower. rewrite !fmap_app.
  fold (toLower y) (toLower m) (toLower V1). rewrite Hm. split.
  - rewrite <- (length_toLower y). apply ocurre_app_length.
  - intros j Hj Hoc.
    pose proof (ocurre_lookup _ _ _ 2 "="%char Hoc eq_refl) as Hl.
    rewrite lookup_app_r in Hl by (rewrite length_toLower; lia).
    rewrite lookup_app_r in Hl by (simpl; rewrite length_toLower; lia).
    unfold toLower in Hl. rewrite list_lookup_fmap in Hl.
    destruct (V1 !! _) as [c|] eqn:E; [| done]. injection Hl as Hl.
    apply tolower_igual in Hl as ->. apply HV.
    by eapply list_elem_of_lookup_2.
Qed.

Lemma coma_antes_marcador z esp2 W :
  Forall blanco esp2 → head W ≠ Some ","%char →
  rfind_char (z ++ ","%char :: esp2 ++ W) ","%char
    (length z + 1 + length esp2)
  = Some (length z).
Proof.
  intros Hesp HW. apply rfind_char_Some. split; [lia |].
  split; [by apply list_lookup_middle |]. intros j Hj1 Hj2 Hl.
  rewrite lookup_app_r in Hl by lia.
  destruct (j - length z) as [|k] eqn:E; [lia |]. simpl in Hl.
  destruct (decide (k < length esp2)) as [Hk|Hk].
  - rewrite lookup_app_l in Hl by done. rewrite Forall_lookup in Hesp.
    by apply no_blanco_coma, (Hesp _ _ Hl).
  - rewrite lookup_app_r in Hl by lia.
    replace (k - length esp2) with 0 in Hl by lia.
    by rewrite <- head_lookup in Hl.
Qed.

(** Two words that are each followed by a space, one text at the front of
    the other, are the same word. *)
Lemma palabra_prefijo w1 w2 Y1 Y2 :
  Forall (λ c, ¬ blanco c) w1 → Forall (λ c, ¬ blanco c) w2 →
  (w1 ++ " "%char :: Y1) `prefix_of` (w2 ++ " "%char :: Y2) → w1 = w2.
Proof.
  intros H1. revert w2. induction H1 as [|c1 w1 Hc1 _ IH]; intros w2 H2 Hp.
  - destruct H2 as [|c2 w2 Hc2 _]; [done |].
    apply prefix_cons_inv_1 in Hp as <-. by destruct (Hc2 blanco_espacio).
  - destruct H2 as [|c2 w2 Hc2 H2].
    + apply prefix_cons_inv_1 in Hp as ->. by destruct (Hc1 blanco_espacio).
    + simpl in Hp. pose proof (prefix_cons_inv_1 _ _ _ _ Hp) as ->.
      apply prefix_cons_inv_2 in Hp. f_equal. by apply IH.
Qed.

Lemma ocurre_cons pat c t j : ocurre pat (c :: t) (S j) ↔ ocurre pat t j.
Proof. apply (ocurre_app_r pat [c] t j). Qed.

Lemma entonces_tras_palabra n Y j :
  Forall (λ c, ¬ blanco c) n → n ≠ lit "entonces" →
  ocurre entoncesMarker (" "%char :: n ++ " "%char :: Y) j →
  length n < j ∧ ocurre entoncesMarker (" "%char :: Y) (j - length n - 1).
Proof.
  intros Hn Hne Hoc. destruct j as [|j].
  - exfalso. apply Hne. destruct Hoc as [_ Hp]. rewrite drop_0 in Hp.
    apply prefix_cons_inv_2 in Hp. symmetry.
    apply (palabra_prefijo (lit "entonces") n [] Y); [| done..].
    repeat apply Forall_cons_2; try apply Forall_nil_2;
      by apply (bool_decide_eq_false (blanco _)).
  - apply ocurre_cons in Hoc.
    destruct (decide (j < length n)) as [Hj|Hj].
    + by apply ocurre_sin_blancos in Hoc.
    + split; [lia |].
      replace j with (length n + (j - length n)) in Hoc by lia.
      apply ocurre_app_r in Hoc.
      by replace (S j - length n - 1) with (j - length n) by lia.
Qed.

Lemma entonces_tras_separador x Y k :
  x ≠ " "%char → x ≠ "e"%char →
  ocurre entoncesMarker (" "%char :: x :: Y) k →
  2 ≤ k ∧ ocurre entoncesMarker Y (k - 2).
Proof.
  intros Hx1 Hx2 Hoc. destruct k as [|[|k]].
  - pose proof (ocurre_lookup _ _ _ 1 "e"%char Hoc eq_refl) as Hl.
    simpl in Hl. congruence.
  - pose proof (ocurre_lookup _ _ _ 0 " "%char Hoc eq_refl) as Hl.
    simpl in Hl. congruence.
  - split; [lia |]. do 2 apply ocurre_cons in Hoc.
    by replace (S (S k) - 2) with k by lia.
Qed.

Lemma separador_letra op :
  op ≠ OperadorLogico.NINGUNO →
  ∃ x, separador op = [" "%char; x; " "%char]
       ∧ x ≠ " "%char ∧ x ≠ "e"%char ∧ tolower x = x.
Proof.
  destruct op; [done | |]; intros _;
    [exists "y"%char | exists "o"%char]; by repeat split.
Qed.

(** In the conditions printed after a space and followed by a space, the
    keyword of the consequent occurs only after the conditions. *)
Lemma entonces_despues op conds X j :
  conds ≠ [] → (op = OperadorLogico.NINGUNO → length conds = 1) →
  Forall (λ h, Forall (λ c, ¬ blanco c) (nombre h)
               ∧ toLower (nombre h) ≠ lit "entonces") conds →
  ocurre entoncesMarker
    (" "%char :: toLower (texto_condiciones op conds) ++ " "%char :: X) j →
  length (texto_condiciones op conds) < j.
Proof.
  revert X j. induction conds as [|h [|h2 r] IH]; intros X j Hne Hop Hw Hoc;
    [done | |].
  - rewrite texto_condiciones_uno in *.
    apply Forall_cons in Hw as [[Hh He] _].
    apply entonces_tras_palabra in Hoc as [Hoc _];
      [by rewrite length_toLower in Hoc | by apply toLower_sin_blancos | done].
  - destruct (separador_letra op) as (x & Hsep & Hx1 & Hx2 & Hx3).
    { intros ->. specialize (Hop eq_refl). simpl in Hop. lia. }
    apply Forall_cons in Hw as [[Hh He] Hw].
    rewrite texto_condiciones_cons, Hsep in *.
    unfold toLower in Hoc. rewrite !fmap_app in Hoc.
    fold (toLower (nombre h)) in Hoc.
    fold (toLower (texto_condiciones op (h2 :: r))) in Hoc.
    change (tolower <$> [" "%char; x; " "%char])
      with [" "%char; tolower x; " "%char] in Hoc. rewrite Hx3 in Hoc.
    rewrite <- !app_assoc in Hoc. simpl in Hoc.
    apply entonces_tras_palabra in Hoc as [Hj Hoc];
      [| by apply toLower_sin_blancos | done].
    apply entonces_tras_separador in Hoc as [Hk Hoc]; [| done..].
    apply IH in Hoc; [| done | | done].
    + rewrite length_toLower in *. rewrite !length_app.
      change (length [" "%char; x; " "%char]) with 3. lia.
    + intros ->. by destruct (Hx1).
Qed.

Lemma texto_condiciones_recortada op conds :
  conds ≠ [] → Forall (λ h, palabra (nombre h)) conds →
  texto_condiciones op conds ≠ [] ∧ recortada (texto_condiciones op conds).
Proof.
  induction conds as [|h [|h2 r] IH]; intros Hne Hw; [done | |].
  - rewrite texto_condiciones_uno.
    apply Forall_cons in Hw as [[Hh Hw] _]. split; [done |].
    by apply palabra_recortada.
  - apply Forall_cons in Hw as [[Hh Hh'] Hw].
    destruct IH as [IH1 [_ IH2]]; [done.. |].
    rewrite texto_condiciones_cons. split; [by destruct (nombre h) |].
    apply palabra_recortada in Hh' as [Hc _]. split; intros c.
    + rewrite head_app. destruct (nombre h); [done |]. apply Hc.
    + rewrite !last_app.
      destruct (last (texto_condiciones op (h2 :: r))) eqn:E.
      * intros [= <-]. by apply IH2.
      * by apply last_None in E.
Qed.

Lemma Hecho_con_nombre_palabra conds :
  Forall hecho_palabra conds →
  Hecho_con_nombre <$> (nombre <$> conds) = conds.
Proof.
  intros Hw. rewrite <- list_fmap_compose.
  rewrite <- (list_fmap_id conds) at 2.
  apply list_fmap_ext. intros i [n fc] Hi. rewrite Forall_lookup in Hw.
  destruct (Hw _ _ Hi) as [_ Hfc]. simpl in *. unfold Hecho_con_nombre.
  by rewrite Hfc.
Qed.

Lemma regla_de_clausula_aceptada r_id fc si a ent cons1 :
  toLower si = siMarker → toLower ent = entoncesMarker →
  Forall condicion_legible (condiciones a) →
  operador_acorde (operador a) (length (condiciones a)) →
  trim cons1 ≠ [] →
  regla_de_clausula r_id fc
    (si ++ texto_condiciones (operador a) (condiciones a) ++ ent ++ cons1)
  = Sigue {| id := r_id;
             antecedente := a;
             consecuente := Hecho_con_nombre (trim cons1);
             factorCertezaRegla := fc |}.
Proof.
  intros Hsi Hent Hw Hop Hcons.
  set (A := texto_condiciones (operador a) (condiciones a)).
  assert (length si = 3) as Hlsi by (by rewrite <- length_toLower, Hsi).
  assert (length ent = 10) as Hlent by (by rewrite <- length_toLower, Hent).
  assert (condiciones a ≠ []) as Hne
    by (intros E; rewrite E in Hop; destruct (operador a); simpl in Hop; lia).
  assert (Forall hecho_palabra (condiciones a)) as HwH
    by (eapply Forall_impl; [exact Hw |]; by intros h [? _]).
  assert (Forall (λ h, palabra (nombre h)) (condiciones a)) as HwP
    by (eapply Forall_impl; [exact Hw |]; by intros h [[? _] _]).
  assert (Forall (λ h, Forall (λ c, ¬ blanco c) (nombre h)
                       ∧ toLower (nombre h) ≠ lit "entonces")
            (condiciones a)) as HwE
    by (eapply Forall_impl; [exact Hw |]; by intros h [[[_ ?] _] ?]).
  destruct (texto_condiciones_recortada (operador a) _ Hne HwP) as [HA HAr].
  fold A in HA, HAr.
  assert (toLower (si ++ A ++ ent ++ cons1)
          = siMarker ++ toLower A ++ entoncesMarker ++ toLower cons1) as Hlow.
  { rewrite <- Hsi, <- Hent. unfold toLower. by rewrite !fmap_app. }
  assert (find (toLower (si ++ A ++ ent ++ cons1)) siMarker 0 = Some 0) as F1.
  { rewrite Hlow. apply find_0_prefix. by apply prefix_app_r. }
  assert (find (toLower (si ++ A ++ ent ++ cons1)) entoncesMarker 3
          = Some (3 + length A)) as F2.
  { rewrite Hlow. apply find_Some. split; [lia |]. split.
    - replace (3 + length A) with (length (siMarker ++ toLower A))
        by (by rewrite length_app, length_toLower).
      rewrite (app_assoc siMarker). apply ocurre_app_length.
    - intros j Hj1 Hj2 Hoc.
      change (siMarker ++ toLower A ++ entoncesMarker ++ toLower cons1)
        with (["s"%char; "i"%char]
              ++ (" "%char :: toLower A
                  ++ " "%char :: lit "entonces " ++ toLower cons1)) in Hoc.
      replace j with (length ["s"%char; "i"%char] + (j - 2)) in Hoc
        by (simpl; lia).
      apply ocurre_app_r, entonces_despues in Hoc; [fold A in Hoc; lia | done | | done].
      intros E. by rewrite E in Hop. }
  unfold regla_de_clausula. rewrite F1. cbv zeta.
  change (0 + length siMarker) with 3. rewrite F2.
  unfold substr, substr_from.
  replace (drop 3 (si ++ A ++ ent ++ cons1)) with (A ++ ent ++ cons1)
    by (by rewrite drop_app_length').
  replace (3 + length A - 3) with (length A) by lia.
  rewrite take_app_length.
  replace (drop (3 + length A + length entoncesMarker)
             (si ++ A ++ ent ++ cons1)) with cons1
    by (rewrite !app_assoc, drop_app_length'; [done |];
        rewrite !length_app; change (length entoncesMarker) with 10; lia).
  rewrite (trim_recortada A HAr), (vacia_false _ HA), (vacia_false _ Hcons).
  unfold A. rewrite (parsearAntecedente_texto_condiciones _ _ _ HwP Hop).
  rewrite trim_idemp, (Hecho_con_nombre_palabra _ HwH).
  by destruct a.
Qed.

Lemma trim_blancos_izq a s : Forall blanco a → trim (a ++ s) = trim s.
Proof.
  intros Ha. rewrite <- (app_nil_r s) at 1. by apply trim_app_blancos.
Qed.

Lemma trim_blancos_der s b : Forall blanco b → trim (s ++ b) = trim s.
Proof. intros Hb. by apply (trim_app_blancos []). Qed.

Lemma cabeza_si si :
  toLower si = siMarker → ∀ c, head si = Some c → ¬ blanco c.
Proof.
  intros Hsi. apply cabeza_toLower. rewrite Hsi. intros c [= <-].
  by apply (bool_decide_eq_false (blanco _)).
Qed.

(** X14. A rule line is accepted whatever the white space around its
    parts and the case of its keywords. For a line made of an identifier
    without colon, a colon, white space, [Si ] in any case, conditions as
    they are printed (words other than the keyword [entonces], joined by
    an operator that fits their number), [ Entonces ] in any case, a
    consequent that is not blank, a comma, white space, the marker [FC=]
    in any case and a text without the sign [=], [cargarReglas] (which
    trims the line) reads the rule with the trimmed identifier, these
    conditions and operator, the trimmed consequent and the number that
    [stod] reads in the trimmed text; it fails with InvalidNumber, or lets
    the exception escape, exactly as [stod] does on that text. *)
Theorem regla_de_linea_aceptada
    (ident esp1 si ent cons esp2 m V : cadena) (a : Antecedente) :
  ":"%char ∉ ident → Forall blanco esp1 → toLower si = siMarker →
  Forall condicion_legible (condiciones a) →
  operador_acorde (operador a) (length (condiciones a)) →
  toLower ent = entoncesMarker → trim cons ≠ [] →
  Forall blanco esp2 → toLower m = fcMarkerLower → "="%char ∉ V →
  regla_de_linea
    (trim (ident ++ ":"%char :: esp1 ++ si
           ++ texto_condiciones (operador a) (condiciones a)
           ++ ent ++ cons ++ ","%char :: esp2 ++ m ++ V))
  = match stod (trim V) with
    | Valor fc =>
        Sigue {| id := trim ident;
                 antecedente := a;
                 consecuente := Hecho_con_nombre (trim cons);
                 factorCertezaRegla := fc |}
    | invalid_argument => Sale (Devuelve false) [InvalidNumber]
    | out_of_range => Sale Lanza_out_of_range []
    end.
Proof.
  intros Hid Hesp1 Hsi Hw Hop Hent Hcons Hesp2 Hm HV.
  set (A := texto_condiciones (operador a) (condiciones a)).
  set (w := si ++ A ++ ent).
  destruct (marcador_palabra m Hm) as ([Hmne Hmw] & Hlm & Hmc).
  assert (w ≠ []) as Hwne
    by (unfold w; intros E; apply app_eq_nil in E as [E _];
        by rewrite E in Hsi).
  assert (∀ c, head w = Some c → ¬ blanco c) as Hwh.
  { intros c. unfold w. rewrite head_app.
    pose proof (cabeza_si si Hsi) as Hc. destruct (head si) eqn:E.
    - intros [= <-]. by apply Hc.
    - apply head_None in E. by rewrite E in Hsi. }
  set (x := (w ++ cons) ++ ","%char :: esp2 ++ m).
  assert (x ≠ []) as Hxne by (unfold x; by destruct w).
  assert (recortada x) as Hx.
  { split; intros c.
    - unfold x. rewrite !head_app. destruct (head w) eqn:E.
      + intros [= <-]. by apply Hwh.
      + by apply head_None in E.
    - unfold x. rewrite last_app, last_cons, last_app.
      apply palabra_recortada in Hmw as [_ Hl].
      destruct (last m) eqn:E; [| by apply last_None in E].
      intros [= <-]. by apply Hl. }
  replace (esp1 ++ si ++ A ++ ent ++ cons ++ ","%char :: esp2 ++ m ++ V)
    with (esp1 ++ x ++ V)
    by (unfold x, w; by rewrite <- ?app_assoc, <- ?app_comm_cons, <- ?app_assoc).
  destruct (trim_linea_caracter ":"%char ident (esp1 ++ x ++ V))
    as (a0 & id1 & T1 & bb & Hid1 & HT1 & Ha0 & Hbb & ->);
    [by apply (bool_decide_eq_false (blanco _)) |].
  unfold regla_de_linea. rewrite find_primer_caracter
    by (intros H; apply Hid; rewrite Hid1; apply elem_of_app; by right).
  unfold substr, substr_from. rewrite drop_0, take_app_length.
  replace (drop (length id1 + 1) (id1 ++ ":"%char :: T1)) with T1
    by (rewrite (cons_middle _ id1 T1), app_assoc, drop_app_length';
        [done | rewrite length_app; simpl; lia]).
  replace (trim id1) with (trim ident)
    by (rewrite Hid1; by apply trim_blancos_izq).
  replace (trim T1) with (trim (x ++ V))
    by (rewrite <- (trim_blancos_izq esp1 (x ++ V) Hesp1), HT1;
        by apply trim_blancos_der).
  destruct (trim_tras_recortada x V Hxne Hx) as (V1 & b & HV1 & Hb & -> & HtV1).
  assert ("="%char ∉ V1) as HV1'
    by (intros H; apply HV; rewrite HV1; apply elem_of_app; by left).
  assert (x ++ V1 = ((w ++ cons) ++ ","%char :: esp2) ++ m ++ V1) as E1
    by (unfold x; by rewrite <- ?app_assoc, <- ?app_comm_cons, <- ?app_assoc).
  assert (x ++ V1 = (w ++ cons) ++ ","%char :: esp2 ++ (m ++ V1)) as E2
    by (unfold x; by rewrite <- ?app_assoc, <- ?app_comm_cons, <- ?app_assoc).
  assert (rfind (toLower (x ++ V1)) fcMarkerLower
          = Some (length (w ++ cons) + 1 + length esp2)) as ->.
  { rewrite E1, (marcador_ultimo _ m V1 Hm HV1'). f_equal.
    rewrite length_app. simpl. lia. }
  assert (rfind_char (x ++ V1) ","%char (length (w ++ cons) + 1 + length esp2)
          = Some (length (w ++ cons))) as ->.
  { rewrite E2. apply coma_antes_marcador; [done |].
    destruct m as [|c m']; [done |]. simpl. intros [= ->].
    apply Hmc. by left. }
  unfold regla_desde_marcador, substr, substr_from.
  replace (drop (length (w ++ cons) + 1 + length esp2 + length fcMarkerLower)
             (x ++ V1)) with V1
    by (rewrite drop_app_length'; [done |]; unfold x;
        rewrite !length_app; simpl; rewrite length_app;
        change (length fcMarkerLower) with 3; lia).
  rewrite HtV1. destruct (stod (trim V)) as [fc| |]; [| done..].
  rewrite drop_0, E2, take_app_length.
  destruct (trim_tras_cabeza w cons Hwne Hwh Hcons)
    as (cons1 & b' & Hc & Hb' & -> & Htc).
  unfold w. rewrite <- !app_assoc.
  rewrite (regla_de_clausula_aceptada _ _ _ _ _ _ Hsi Hent Hw Hop)
    by (by rewrite Htc).
  by rewrite Htc.
Qed.

Lemma regla_de_linea_aceptada_witness :
  regla_de_linea (trim (lit "R3:  si h5 y h6 ENTONCES h3 ,  fc= 0.7 "))
  = Sigue regla_R3.
Proof.
  etransitivity.
  - apply (regla_de_linea_aceptada (lit "R3") (lit "  ") (lit "si ")
             (lit " ENTONCES ") (lit "h3 ") (lit "  ") (lit "fc=")
             (lit " 0.7 ")
             {| condiciones := [Hecho_con_nombre (lit "h5");
                                Hecho_con_nombre (lit "h6")];
                operador := OperadorLogico.Y |}).
    + no_esta.
    + repeat apply Forall_cons_2; try apply Forall_nil_2;
        apply blanco_espacio.
    + reflexivity.
    + assert (∀ w, w ≠ [] →
                   Forall (λ c, bool_decide (blanco c) = false) w →
                   toLower w ≠ lit "entonces" →
                   condicion_legible (Hecho_con_nombre w)) as Hw.
      { intros w ? Hw ?. split; [split; [split; [done |] | done] | done].
        eapply Forall_impl; [exact Hw |]. intros c.
        apply (bool_decide_eq_false (blanco c)). }
      repeat apply Forall_cons_2; [| | apply Forall_nil_2];
        (apply Hw; [done | by repeat apply Forall_cons_2 | done]).
    + simpl. lia.
    + reflexivity.
    + discriminate.
    + repeat apply Forall_cons_2; try apply Forall_nil_2;
        apply blanco_espacio.
    + reflexivity.
    + no_esta.
  - reflexivity.
Defined.

(** ** The rules that are printed *)

Lemma igual_tras_espacio_drop k s :
  igual_tras_espacio s → igual_tras_espacio (drop k s).
Proof.
  intros H i. rewrite !lookup_drop, <- plus_n_Sm. apply H.
Qed.

Lemma igual_tras_espacio_medio a t b :
  igual_tras_espacio (a ++ t ++ b) → igual_tras_espacio t.
Proof.
  intros H i Hi. pose proof (lookup_lt_Some _ _ _ Hi) as Hlt.
  assert ((a ++ t ++ b) !! S (length a + i) = Some "="%char) as H1.
  { rewrite plus_n_Sm, lookup_app_r by lia.
    replace (length a + S i - length a) with (S i) by lia.
    by rewrite lookup_app_l. }
  apply H in H1. rewrite lookup_app_r in H1 by lia.
  replace (length a + i - length a) with i in H1 by lia.
  by rewrite lookup_app_l in H1 by lia.
Qed.

Lemma igual_tras_espacio_trim s :
  igual_tras_espacio s → igual_tras_espacio (trim s).
Proof.
  intros H. destruct (trim_decomp s) as (a & b & Hs & _).
  rewrite Hs in H. by eapply igual_tras_espacio_medio.
Qed.

Lemma igual_tras_espacio_unico pre post :
  "="%char ∉ pre → "="%char ∉ post →
  igual_tras_espacio (pre ++ " "%char :: "="%char :: post).
Proof.
  intros Hpre Hpost i Hi.
  destruct (Nat.lt_trichotomy (S i) (length pre)) as [Hlt|[Heq|Hgt]].
  - rewrite lookup_app_l in Hi by done. destruct Hpre.
    by eapply list_elem_of_lookup_2.
  - by rewrite Heq, list_lookup_middle in Hi.
  - rewrite lookup_app_r in Hi by lia.
    destruct (S i - length pre) as [|[|k]] eqn:E; [lia | |].
    + replace i with (length pre) by lia. by apply list_lookup_middle.
    + simpl in Hi. destruct Hpost. by eapply list_elem_of_lookup_2.
Qed.

Lemma igual_tras_espacio_ausente def :
  igual_tras_espacio def → ausente fcMarkerLower (toLower def).
Proof.
  intros H j Hoc.
  pose proof (ocurre_lookup _ _ _ 1 "c"%char Hoc eq_refl) as H1.
  pose proof (ocurre_lookup _ _ _ 2 "="%char Hoc eq_refl) as H2.
  unfold toLower in H1, H2. rewrite list_lookup_fmap in H1, H2.
  destruct (def !! (j + 2)) as [c2|] eqn:E2; [| done].
  injection H2 as H2. apply tolower_igual in H2 as ->.
  replace (j + 2) with (S (j + 1)) in E2 by lia.
  apply H in E2. by rewrite E2 in H1.
Qed.

Lemma texto_condiciones_elem c op conds :
  c ∈ texto_condiciones op conds →
  c ∈ separador op ∨ ∃ h, h ∈ conds ∧ c ∈ nombre h.
Proof.
  induction conds as [|h [|h2 r] IH].
  - by intros ?%elem_of_nil.
  - rewrite texto_condiciones_uno. intros H. right. exists h.
    split; [by left | done].
  - rewrite texto_condiciones_cons, !elem_of_app. intros [H|[H|H]].
    + right. exists h. split; [by left | done].
    + by left.
    + destruct (IH H) as [?|(h' & Hh' & ?)]; [by left |].
      right. exists h'. split; [by right | done].
Qed.

Lemma trim_conserva c s : c ∈ s → ¬ blanco c → c ∈ trim s.
Proof.
  intros Hc Hb. destruct (trim_decomp s) as (a & b & Hs & Ha & Hb' & _).
  rewrite Hs, !elem_of_app in Hc. rewrite Forall_forall in Ha, Hb'.
  destruct Hc as [Hc|[Hc|Hc]]; [by destruct (Hb (Ha _ Hc)) | done |
                                 by destruct (Hb (Hb' _ Hc))].
Qed.

(** X15. A rule line as [imprimirBaseConocimiento] prints it, with
    [, FC = ] before the number, is refused by [cargarReglas]: when the
    sign [=] occurs neither in the identifier, nor in the names of the
    conditions and of the consequent, nor in the printed number, the line
    read back fails with the message on the missing marker, because the
    marker searched is [fc=] with no space before the sign. *)
Theorem linea_regla_rechazada (mostrar_double : double → cadena)
    (regla : Regla) :
  "="%char ∉ id regla →
  Forall (λ h, "="%char ∉ nombre h) (condiciones (antecedente regla)) →
  "="%char ∉ nombre (consecuente regla) →
  "="%char ∉ mostrar_double (factorCertezaRegla regla) →
  regla_de_linea (trim (linea_regla mostrar_double regla))
  = Sale (Devuelve false) [MissingFCMarker].
Proof.
  intros Hid Hconds Hcons HM. unfold linea_regla.
  set (M := mostrar_double (factorCertezaRegla regla)) in *.
  set (A := texto_condiciones (operador (antecedente regla))
              (condiciones (antecedente regla))).
  set (L := id regla ++ lit ": Si " ++ A ++ lit " Entonces "
            ++ nombre (consecuente regla) ++ lit ", FC = " ++ M).
  assert ("="%char ∉ A) as HA.
  { intros [H|(h & Hh & H)]%texto_condiciones_elem.
    - revert H. destruct (operador (antecedente regla)); no_esta.
    - rewrite Forall_forall in Hconds. by apply (Hconds h Hh). }
  assert (igual_tras_espacio L) as HL.
  { replace L with ((id regla ++ lit ": Si " ++ A ++ lit " Entonces "
                     ++ nombre (consecuente regla) ++ lit ", FC")
                    ++ " "%char :: "="%char :: " "%char :: M)
      by (unfold L; by rewrite <- ?app_assoc).
    apply igual_tras_espacio_unico.
    - rewrite !elem_of_app. intros [H|[H|[H|[H|[H|H]]]]]; try done;
        revert H; no_esta.
    - apply not_elem_of_cons. by split. }
  assert (":"%char ∈ trim L) as Hcolon.
  { apply trim_conserva; [| by apply (bool_decide_eq_false (blanco _))].
    unfold L. rewrite !elem_of_app. right. left. by left. }
  unfold regla_de_linea.
  destruct (find (trim L) [":"%char] 0) as [p|] eqn:F.
  - rewrite (proj2 (rfind_None _ _)); [done |].
    apply igual_tras_espacio_ausente, igual_tras_espacio_trim.
    unfold substr_from.
    by apply igual_tras_espacio_drop, igual_tras_espacio_trim.
  - apply list_elem_of_lookup_1 in Hcolon as [i Hi].
    apply ocurre_char in Hi. rewrite find_None in F.
    destruct (F i); [lia | done].
Qed.

Lemma linea_regla_rechazada_witness :
  regla_de_linea (trim (lit "R1: Si h2 o h3 Entonces h1, FC = 0.5"))
  = Sale (Devuelve false) [MissingFCMarker].
Proof.
  apply (linea_regla_rechazada (λ _, lit "0.5") regla_R1).
  - no_esta.
  - repeat apply Forall_cons_2; try apply Forall_nil_2; no_esta.
  - no_esta.
  - no_esta.
Defined.
